(** * LeetCode AI Tutor: the phase timer, the phase sequencer and the history log

    A shallow embedding of the extension's timing core:
    - [timer.js]: [startPhaseTimer], [stopPhaseTimer], [getRemainingTime],
      [recordPhaseStart], [getCurrentPhase], [completeCurrentPhase];
    - [storage.js]: [getConfig], [getDefaultConfig], [logPhase], [getLogs],
      [getState], [setCurrentIndex], [logSolution], [getSolutions];
    - [background.js]: [handleStartPhase], [handleCompletePhase],
      [handlePhaseTimeout], [handleSkipProblem], the [onAlarm] listener;
    - [newtab.js]: [startPhase], [completePhase], [getNextPhase], [startTimer],
      [stopTimer], the interval callback, [handlePhaseTimeout], [skipProblem],
      [resetState];
    - [logger.js]: [generateWeeklyReport] up to the Markdown it prints.

    Conventions of the model.
    - Time is an integer number of milliseconds ([Z]); a [Date] is its
      millisecond value.  The clock is a field of the world, advanced by the
      environment between events ([elapse]); the reads of one handler see one
      instant.
    - JavaScript numbers are exact: configured durations are integers ([Z]),
      a logged duration [(end - start) / 1000] is a rational ([Q]).
    - A JavaScript object used as a dictionary is a [gmap string _] of the
      properties it has of its own.  The report reads its maps as the code
      does, the names inherited from [Object.prototype] included
      ([getProperty]); the configured durations are looked up among the own
      properties, and the statements say where an inherited name is left
      out.
    - [chrome.storage.sync] and [sessionStorage] always answer, and the
      service applies the operations in the order they are issued; the DOM,
      the contents of notifications and the editor contents are left out.
    - A handler runs to its end before the next event is handled, as the
      page and the alarm service deliver events one at a time; the race of
      the two handlers that end an interval is also modelled [await] by
      [await] ([raceRun]). *)

From Stdlib Require Import ZArith QArith Qround Ascii String List Lia.
From stdpp Require Import base option gmap strings list pretty.

Close Scope Q_scope.
Open Scope Z_scope.

(** ** Exceptions and state: the monad of the handlers *)

Inductive outcome (A : Type) : Type :=
| Return (a : A)
| Throw (message : string).
Arguments Return {A} a.
Arguments Throw {A} message.

Definition Js (S A : Type) : Type := S -> outcome A * S.

Section JsMonad.
Context {S : Type}.

Definition ret {A} (a : A) : Js S A := fun s => (Return a, s).

Definition throw {A} (message : string) : Js S A := fun s => (Throw message, s).

Definition bind {A B} (c : Js S A) (k : A -> Js S B) : Js S B :=
  fun s => match c s with
           | (Return a, s') => k a s'
           | (Throw m, s') => (Throw m, s')
           end.

(** [try { c } catch (error) { h error.message }] *)
Definition try_catch {A} (c : Js S A) (h : string -> Js S A) : Js S A :=
  fun s => match c s with
           | (Return a, s') => (Return a, s')
           | (Throw m, s') => h m s'
           end.

Definition gets {A} (f : S -> A) : Js S A := fun s => (Return (f s), s).

Definition modify (f : S -> S) : Js S unit := fun s => (Return tt, f s).
End JsMonad.

Notation "'let*' x ':=' c 'in' k" := (bind c (fun x => k))
  (at level 10, x name, c at level 100, k at level 200).
Notation "c ';;' k" := (bind c (fun _ => k))
  (at level 100, k at level 200, right associativity).

(** ** Data model *)

(** The record kept under the [sessionStorage] key ['currentPhase']. *)
Record PhaseRecord : Type := mkPhaseRecord {
  rec_problemUrl : string;
  rec_phase : string;
  rec_startTime : Z
}.

(** An entry of the [logs] array written by [storage.logPhase]. *)
Record LogEntry : Type := mkLogEntry {
  log_timestamp : Z;
  log_problemUrl : string;
  log_phase : string;
  log_duration : Q;
  log_start : Z;
  log_end : Z
}.

(** An entry of the [solutions] array (the texts it carries are left out). *)
Record Solution : Type := mkSolution {
  sol_timestamp : Z;
  sol_problemUrl : string
}.

Record Problem : Type := mkProblem {
  title : string;
  url : string;
  difficulty : string
}.

(** What the background script sees: the clock, [chrome.alarms],
    [sessionStorage], [chrome.storage.sync] and the notifications created. *)
Record World : Type := mkWorld {
  clock : Z;
  alarms : gmap string Z;                 (* name -> scheduledTime *)
  currentPhaseItem : option PhaseRecord;  (* sessionStorage 'currentPhase' *)
  config : option (gmap string Z);        (* stored config.phaseDurations *)
  logs : list LogEntry;
  solutions : list Solution;
  problems : list Problem;
  currentIndex : option nat;              (* None: NaN *)
  notifications : list string
}.

Definition set_clock (t : Z) (w : World) : World :=
  mkWorld t (alarms w) (currentPhaseItem w) (config w) (logs w) (solutions w)
          (problems w) (currentIndex w) (notifications w).
Definition set_alarms (a : gmap string Z) (w : World) : World :=
  mkWorld (clock w) a (currentPhaseItem w) (config w) (logs w) (solutions w)
          (problems w) (currentIndex w) (notifications w).
Definition set_currentPhaseItem (r : option PhaseRecord) (w : World) : World :=
  mkWorld (clock w) (alarms w) r (config w) (logs w) (solutions w)
          (problems w) (currentIndex w) (notifications w).
Definition set_logs (l : list LogEntry) (w : World) : World :=
  mkWorld (clock w) (alarms w) (currentPhaseItem w) (config w) l (solutions w)
          (problems w) (currentIndex w) (notifications w).
Definition set_solutions (l : list Solution) (w : World) : World :=
  mkWorld (clock w) (alarms w) (currentPhaseItem w) (config w) (logs w) l
          (problems w) (currentIndex w) (notifications w).
Definition set_currentIndex (i : option nat) (w : World) : World :=
  mkWorld (clock w) (alarms w) (currentPhaseItem w) (config w) (logs w) (solutions w)
          (problems w) i (notifications w).
Definition set_notifications (n : list string) (w : World) : World :=
  mkWorld (clock w) (alarms w) (currentPhaseItem w) (config w) (logs w) (solutions w)
          (problems w) (currentIndex w) n.

Definition set_config (c : option (gmap string Z)) (w : World) : World :=
  mkWorld (clock w) (alarms w) (currentPhaseItem w) c (logs w) (solutions w)
          (problems w) (currentIndex w) (notifications w).
Definition set_problems (l : list Problem) (w : World) : World :=
  mkWorld (clock w) (alarms w) (currentPhaseItem w) (config w) (logs w) (solutions w)
          l (currentIndex w) (notifications w).

(** The environment lets [d] milliseconds pass. *)
Definition elapse (d : Z) (w : World) : World := set_clock (clock w + d) w.

(** ** JavaScript strings and numbers, as far as the code uses them

    A string is a sequence of the characters U+0000 to U+00FF, one per
    8-bit code: the functions below are the JavaScript ones on such texts. *)

(** [String(n)], [n.toString()] and [`${n}`] for an integer [n]. *)
Definition toString (n : Z) : string := pretty n.

Fixpoint repeatChar (n : nat) (c : ascii) : string :=
  match n with
  | O => ""
  | S n => String c (repeatChar n c)
  end.


(** [s.split(sep)] for a one-character [sep]: the empty string gives one
    empty field, two separators in a row an empty field between them. *)
Fixpoint split (sep : ascii) (s : string) : list string :=
  match s with
  | EmptyString => [""]
  | String c s' =>
      if bool_decide (c = sep) then "" :: split sep s'
      else match split sep s' with
           | [] => [String c ""]
           | field :: fields => String c field :: fields
           end
  end.

(** White space and line terminators: tab, line feed, vertical tab, form
    feed, carriage return, space and the no-break space U+00A0 (the others
    lie beyond U+00FF). *)
Definition isWhiteSpace (c : ascii) : bool :=
  let n := N_of_ascii c in
  ((9 <=? n) && (n <=? 13) || (n =? 32) || (n =? 160))%N.

Fixpoint trimStart (s : string) : string :=
  match s with
  | String c s' => if isWhiteSpace c then trimStart s' else s
  | EmptyString => ""
  end.

(** [s.trimEnd()], answered with [None] when nothing but white space (or
    nothing at all) is left. *)
Fixpoint trimEnd_go (s : string) : option string :=
  match s with
  | EmptyString => None
  | String c s' =>
      match trimEnd_go s' with
      | Some rest => Some (String c rest)
      | None => if isWhiteSpace c then None else Some (String c "")
      end
  end.

Definition trimEnd (s : string) : string := default "" (trimEnd_go s).

(** [s.trim()] *)
Definition trim (s : string) : string := trimEnd (trimStart s).

(** The value of [c] as a digit in [radix] (10 or 16), if it is one. *)
Definition digitValue (radix : Z) (c : ascii) : option Z :=
  let n := Z.of_N (N_of_ascii c) in
  let value :=
    if (48 <=? n) && (n <=? 57) then Some (n - 48)
    else if (97 <=? n) && (n <=? 122) then Some (n - 87)
    else if (65 <=? n) && (n <=? 90) then Some (n - 55)
    else None in
  match value with
  | Some d => if d <? radix then Some d else None
  | None => None
  end.

(** The number written by the longest prefix of [s] made of digits, after
    the digits read so far ([acc], [None] when none was read). *)
Fixpoint parseDigits (radix : Z) (s : string) (acc : option Z) : option Z :=
  match s with
  | String c s' =>
      match digitValue radix c with
      | Some d => parseDigits radix s' (Some (default 0 acc * radix + d))
      | None => acc
      end
  | EmptyString => acc
  end.

(** [parseInt(s)], [None] standing for NaN: leading white space is skipped,
    a sign is read, [0x] or [0X] switches to radix 16, then the longest
    prefix of digits counts and what follows it is ignored.  (Numbers are
    exact here; JavaScript rounds those beyond 2^53.) *)
Definition parseInt (s : string) : option Z :=
  let s := trimStart s in
  let '(sign, s) :=
    match s with
    | String "-" s' => (-1, s')
    | String "+" s' => (1, s')
    | _ => (1, s)
    end in
  let '(radix, s) :=
    match s with
    | String "0" (String "x" s') => (16, s')
    | String "0" (String "X" s') => (16, s')
    | _ => (10, s)
    end in
  Z.mul sign <$> parseDigits radix s None.

(** The names of the properties every plain object inherits from
    [Object.prototype]: reading one of them from an object that has no
    property of its own under that name gives a function (the prototype
    itself for [__proto__]), not [undefined]. *)
Definition inheritedName (key : string) : bool :=
  bool_decide (key ∈ ["constructor"; "hasOwnProperty"; "isPrototypeOf";
                      "propertyIsEnumerable"; "toLocaleString"; "toString"; "valueOf";
                      "__proto__"; "__defineGetter__"; "__defineSetter__";
                      "__lookupGetter__"; "__lookupSetter__"]).

(** What reading [o[key]] finds on a plain object [o]. *)
Inductive Property (A : Type) : Type :=
| Own (value : A)
| Inherited
| Missing.
Arguments Own {A} value.
Arguments Inherited {A}.
Arguments Missing {A}.

Definition getProperty {A} (o : gmap string A) (key : string) : Property A :=
  match o !! key with
  | Some value => Own value
  | None => if inheritedName key then Inherited else Missing
  end.

(** [n || fallback] for a number [n] that may be NaN. *)
Definition orNumber (n : option Z) (fallback : Z) : Z :=
  match n with
  | None | Some 0 => fallback
  | Some n => n
  end.

(** The fields of a [Date], in local time, that the code reads. *)
Record DateFields : Type := mkDateFields {
  getDay : Z;
  getHours : Z;
  getMinutes : Z
}.

(** ** The alarm service ([chrome.alarms]) *)

Module Alarms.
(** [delayInMinutes] in milliseconds. *)
Definition delay_ms (delayInMinutes : Q) : Z :=
  Qfloor (Qmult delayInMinutes (inject_Z 60000)).

(** [chrome.alarms.create(name, { delayInMinutes })]: an alarm of that name
    replaces the one there was. *)
Definition create (name : string) (delayInMinutes : Q) : Js World unit :=
  modify (fun w => set_alarms (<[name := clock w + delay_ms delayInMinutes]> (alarms w)) w).

(** [chrome.alarms.clear(name)]: answers whether there was one; clearing an
    alarm that is not there is no error. *)
Definition clear (name : string) : Js World bool :=
  fun w => (Return (bool_decide (is_Some (alarms w !! name))),
            set_alarms (delete name (alarms w)) w).

(** The [find] over [chrome.alarms.getAll()]. *)
Definition find (name : string) : Js World (option Z) :=
  gets (fun w => alarms w !! name).

(** [chrome.alarms.clearAll()] *)
Definition clearAll : Js World unit :=
  modify (set_alarms ∅).

(** [chrome.alarms.create(name, { periodInMinutes })]: without a delay the
    alarm first fires one period from now (that it repeats is not kept). *)
Definition createPeriodic (name : string) (periodInMinutes : Q) : Js World unit :=
  modify (fun w => set_alarms (<[name := clock w + delay_ms periodInMinutes]> (alarms w)) w).
End Alarms.

(** ** timer.js *)

Record TimerObj : Type := mkTimerObj {
  timer_phase : string;
  timer_startTime : Z;
  timer_durationSec : Z
}.

(** The record returned by [completeCurrentPhase]: the stored one with
    [endTime] and [duration] added. *)
Record CompletedRecord : Type := mkCompletedRecord {
  completed : PhaseRecord;
  endTime : Z;
  duration : Q
}.

Module Timer.

(** The quotient [durationSec / 60] is taken exactly here.  The code computes
    it in floating point: exactly for a whole number of minutes; for another
    duration the delay it passes on may fall a fraction of a millisecond
    short of [durationSec] seconds. *)
Definition startPhaseTimer (phaseName : string) (durationSec : Z) : Js World TimerObj :=
  Alarms.clear phaseName ;;
  Alarms.create phaseName (Qdiv (inject_Z durationSec) (inject_Z 60)) ;;
  let* t := gets clock in
  ret (mkTimerObj phaseName t durationSec).

Definition stopPhaseTimer (phaseName : string) : Js World bool :=
  Alarms.clear phaseName.

Definition getRemainingTime (phaseName : string) : Js World Z :=
  let* alarm := Alarms.find phaseName in
  match alarm with
  | None => ret 0
  | Some scheduledTime =>
      let* t := gets clock in
      let remainingMs := scheduledTime - t in
      ret (Z.max 0 (remainingMs / 1000))
  end.

Definition recordPhaseStart (problemUrl phase : string) : Js World PhaseRecord :=
  let* t := gets clock in
  let record := mkPhaseRecord problemUrl phase t in
  modify (set_currentPhaseItem (Some record)) ;;
  ret record.

Definition getCurrentPhase : Js World (option PhaseRecord) :=
  gets currentPhaseItem.

Definition completeCurrentPhase : Js World (option CompletedRecord) :=
  let* record := getCurrentPhase in
  match record with
  | None => ret None
  | Some record =>
      let* endTime := gets clock in
      let duration := Qmake (endTime - rec_startTime record) 1000 in
      modify (set_currentPhaseItem None) ;;
      ret (Some (mkCompletedRecord record endTime duration))
  end.

(** [scheduleAlarms(phaseDurations, quizCron)] uses neither argument. *)
Definition scheduleAlarms (phaseDurations : gmap string Z) (quizCron : string)
  : Js World unit :=
  Alarms.clearAll ;;
  Alarms.createPeriodic "quizReminderCheck" (inject_Z (60 * 24)).

Definition matchesCron (date : DateFields) (cronExpression : string) : bool :=
  match split " " cronExpression with
  | [minute; hour; dayOfMonth; month; dayOfWeek] =>
      let currentDayOfWeek := toString (getDay date) in
      if bool_decide (dayOfWeek <> "*")
         && negb (bool_decide (currentDayOfWeek ∈ split "," dayOfWeek))
      then false
      else if bool_decide (hour <> "*")
              && negb (bool_decide (parseInt hour = Some (getHours date)))
      then false
      else if bool_decide (minute <> "*")
              && negb (bool_decide (parseInt minute = Some (getMinutes date)))
      then false
      else true
  | _ => false
  end.


End Timer.

(** ** The records of quiz.js *)

Record Question : Type := mkQuestion {
  problemStatement : string;
  question_options : list string;
  correctAnswer : string;
  explanation : string
}.

Record Quiz : Type := mkQuiz {
  questions : list Question;
  quiz_timestamp : Z
}.

Record QuestionResult : Type := mkQuestionResult {
  questionIndex : nat;
  userAnswer : option string;              (* None: undefined *)
  result_correctAnswer : string;
  isCorrect : bool
}.

Record QuizResults : Type := mkQuizResults {
  score : nat;
  total : nat;
  percentage : option Q;                   (* None: NaN *)
  results : list QuestionResult
}.

(** An entry of the [quizLogs] array of [chrome.storage.sync]. *)
Record QuizLog : Type := mkQuizLog {
  quizlog_timestamp : Z;
  quizlog_quiz : Quiz;
  quizlog_results : option QuizResults
}.

(** ** storage.js *)

Module Storage.

Definition getDefaultConfig : gmap string Z :=
  <["understand" := 300]> (<["pseudocode" := 600]>
  (<["implement" := 900]> (<["optimize" := 600]> ∅))).

(** [getConfig()], of which only [phaseDurations] is kept. *)
Definition getConfig : Js World (gmap string Z) :=
  let* stored := gets config in
  ret (default getDefaultConfig stored).

Definition getLogs : Js World (list LogEntry) := gets logs.

Definition logPhase (problemUrl phase : string) (start end_ : Z) : Js World unit :=
  let* logs := getLogs in
  let* timestamp := gets clock in
  modify (set_logs (logs ++ [mkLogEntry timestamp problemUrl phase
                               (Qmake (end_ - start) 1000) start end_])).

Definition getSolutions : Js World (list Solution) := gets solutions.

Definition logSolution (problemUrl : string) : Js World unit :=
  let* solutions := getSolutions in
  let* timestamp := gets clock in
  modify (set_solutions (solutions ++ [mkSolution timestamp problemUrl])).

(** [getState()]: [result.currentIndex || 0] turns a stored NaN into 0. *)
Definition getState : Js World (list Problem * nat) :=
  let* ps := gets problems in
  let* i := gets currentIndex in
  ret (ps, default 0%nat i).

Definition setCurrentIndex (index : option nat) : Js World unit :=
  modify (set_currentIndex index).


(** [saveConfig(config)], of which only [phaseDurations] is kept. *)
Definition saveConfig (phaseDurations : gmap string Z) : Js World unit :=
  modify (set_config (Some phaseDurations)).

Definition getPastProblemUrls : Js World (list string) :=
  let* solutions := getSolutions in
  ret (sol_problemUrl <$> solutions).

(** The [quizLogs] key is kept apart from [World]: a state of its own. *)
Definition getQuizLogs : Js (list QuizLog) (list QuizLog) := gets id.
End Storage.

(** ** quiz.js *)

Module Quiz.

(** The body of [quiz.questions.forEach((question, index) => ...)], on the
    pair of [score] and [results]. *)
Definition gradeQuestion (answers : gmap string string)
    (acc : nat * list QuestionResult) (index : nat) (question : Question)
  : nat * list QuestionResult :=
  let '(score, results) := acc in
  let userAnswer := answers !! ("q" +:+ toString (Z.of_nat index)) in
  let isCorrect := bool_decide (userAnswer = Some (correctAnswer question)) in
  let score := if isCorrect then S score else score in
  (score, results ++ [mkQuestionResult index userAnswer (correctAnswer question) isCorrect]).

(** [forEach] from position [index] on. *)
Fixpoint forEachQuestion (answers : gmap string string) (index : nat)
    (questions : list Question) (acc : nat * list QuestionResult)
  : nat * list QuestionResult :=
  match questions with
  | [] => acc
  | question :: questions =>
      forEachQuestion answers (S index) questions (gradeQuestion answers acc index question)
  end.

Definition gradeQuiz (quiz : Quiz) (answers : gmap string string) : QuizResults :=
  let '(score, results) := forEachQuestion answers 0 (questions quiz) (0%nat, []) in
  let total := length (questions quiz) in
  mkQuizResults score total
    (match total with
     | O => None
     | _ => Some (Qmult (Qdiv (inject_Z (Z.of_nat score)) (inject_Z (Z.of_nat total)))
                        (inject_Z 100))
     end)
    results.

(** [quizLog.results = results] on the log that
    [quizLogs.find(log => log.quiz.timestamp === quiz.timestamp)] finds. *)
Fixpoint setResults (timestamp : Z) (results : QuizResults) (quizLogs : list QuizLog)
  : list QuizLog :=
  match quizLogs with
  | [] => []
  | log :: quizLogs =>
      if bool_decide (quiz_timestamp (quizlog_quiz log) = timestamp)
      then mkQuizLog (quizlog_timestamp log) (quizlog_quiz log) (Some results) :: quizLogs
      else log :: setResults timestamp results quizLogs
  end.

Definition saveQuizResults (quiz : Quiz) (results : QuizResults) : Js (list QuizLog) unit :=
  let* quizLogs := Storage.getQuizLogs in
  modify (fun _ => setResults (quiz_timestamp quiz) results quizLogs).

End Quiz.

(** ** background.js *)

Inductive Response (A : Type) : Type :=
| Success (payload : A)
| Error (message : string).
Arguments Success {A} payload.
Arguments Error {A} message.

Record StartInfo : Type := mkStartInfo {
  start_phase : string;
  start_durationSec : Z;
  start_startTime : Z
}.

Record CompleteInfo : Type := mkCompleteInfo {
  complete_phase : string;
  complete_duration : Q
}.

(** The part of a configuration that is kept. *)
Record Config : Type := mkConfig {
  problemListUrl : string;
  phaseDurations : gmap string Z
}.

Module Background.

(** [try { ... return { success: true, ... } } catch (error) { return { error: error.message } }] *)
Definition respond {S A} (body : Js S A) : Js S (Response A) :=
  try_catch (let* a := body in ret (Success a)) (fun m => ret (Error m)).

(** [phaseDurations[phase]] is read here among the properties the object has
    of its own.  For a name every object inherits ([inheritedName]) that the
    configuration does not define, the code finds a function there, which
    passes the test [!durationSec]; such names are no phases of any
    configuration. *)
Definition handleStartPhase (phase problemUrl : string) : Js World (Response StartInfo) :=
  respond (
    let* phaseDurations := Storage.getConfig in
    match phaseDurations !! phase with
    | None | Some 0 => throw ("Invalid phase: " +:+ phase)
    | Some durationSec =>
        let* timerObj := Timer.startPhaseTimer phase durationSec in
        let* record := Timer.recordPhaseStart problemUrl phase in
        ret (mkStartInfo phase durationSec (rec_startTime record))
    end).

Definition handleCompletePhase (phase problemUrl : string) : Js World (Response CompleteInfo) :=
  respond (
    Timer.stopPhaseTimer phase ;;
    let* record := Timer.completeCurrentPhase in
    match record with
    | None => throw "No active phase found"
    | Some record =>
        let* now := gets clock in
        Storage.logPhase problemUrl phase (rec_startTime (completed record)) now ;;
        ret (mkCompleteInfo phase (duration record))
    end).

(** [handlePhaseTimeout(phase)]; the answer is the [PHASE_TIMEOUT] message
    sent to the page, if any. *)
Definition handlePhaseTimeout (phase : string) : Js World (option string) :=
  let* currentPhase := Timer.getCurrentPhase in
  match currentPhase with
  | None => ret None
  | Some current =>
      if bool_decide (rec_phase current <> phase) then ret None
      else
        modify (fun w => set_notifications (notifications w ++ [phase]) w) ;;
        let* record := Timer.completeCurrentPhase in
        match record with
        | Some record =>
            let* now := gets clock in
            Storage.logPhase (rec_problemUrl (completed record)) phase
                             (rec_startTime (completed record)) now
        | None => ret tt
        end ;;
        ret (Some phase)
  end.

(** [(currentIndex + 1) % problems.length]: NaN for an empty list. *)
Definition nextIndex (currentIndex : nat) (problems : list Problem) : option nat :=
  match problems with
  | [] => None
  | _ => Some ((currentIndex + 1) mod length problems)%nat
  end.

(** [problems[nextIndex]]: undefined out of range and at NaN. *)
Definition problemAt (problems : list Problem) (index : option nat) : option Problem :=
  match index with
  | None => None
  | Some i => problems !! i
  end.

Definition handleSkipProblem : Js World (Response (option Problem)) :=
  respond (
    let* st := Storage.getState in
    let '(problems, currentIndex) := st in
    let nextIndex := nextIndex currentIndex problems in
    Storage.setCurrentIndex nextIndex ;;
    ret (problemAt problems nextIndex)).

(** [handleMarkSolved]: the GitHub commit inside [logger.logSolution] is
    caught there and only reported in the answer, which is left out. *)
Definition handleMarkSolved (problemUrl : string) : Js World (Response (option Problem)) :=
  respond (
    Storage.logSolution problemUrl ;;
    let* st := Storage.getState in
    let '(problems, currentIndex) := st in
    let nextIndex := nextIndex currentIndex problems in
    Storage.setCurrentIndex nextIndex ;;
    ret (problemAt problems nextIndex)).

(** [handleConfigUpdate(config)]; [fetched] is what
    [storage.fetchProblemList(config.problemListUrl)] answers (the empty
    list when the fetch fails). *)
Definition handleConfigUpdate (config : Config) (fetched : list Problem)
  : Js World (Response unit) :=
  respond (
    Storage.saveConfig (phaseDurations config) ;;
    (if bool_decide (problemListUrl config <> "") then
       modify (fun w => set_currentIndex (Some 0%nat) (set_problems fetched w))
     else ret tt) ;;
    Timer.scheduleAlarms (phaseDurations config) "" ;;
    ret tt).

(** [handleGradeQuiz(answers)], on the [quizLogs] key. *)
Definition handleGradeQuiz (answers : gmap string string)
  : Js (list QuizLog) (Response QuizResults) :=
  respond (
    let* quizLogs := Storage.getQuizLogs in
    match last quizLogs with
    | None => throw "No active quiz found"
    | Some log =>
        let currentQuiz := quizlog_quiz log in
        let results := Quiz.gradeQuiz currentQuiz answers in
        Quiz.saveQuizResults currentQuiz results ;;
        ret results
    end).

(** [handleQuizReminderCheck()] reads the configuration and the quiz logs
    and may create a notification: it alters nothing that is kept here. *)
Definition handleQuizReminderCheck : Js World unit := ret tt.

(** The [chrome.alarms.onAlarm] listener. *)
Definition onAlarm (name : string) : Js World (option string) :=
  if bool_decide (name = "quizReminderCheck") then
    handleQuizReminderCheck ;;
    ret None
  else handlePhaseTimeout name.

(** The alarm service delivering alarm [name]: it is pending and due, it is
    one-shot, so it is gone once delivered. *)
Definition fireAlarm (name : string) : Js World (option string) :=
  let* alarm := Alarms.find name in
  let* t := gets clock in
  match alarm with
  | Some scheduledTime =>
      if bool_decide (scheduledTime <= t) then
        modify (fun w => set_alarms (delete name (alarms w)) w) ;;
        onAlarm name
      else ret None
  | None => ret None
  end.
End Background.

(** ** options.js *)

(** The values of the form fields that [saveConfig] reads. *)
Record OptionsForm : Type := mkOptionsForm {
  problemListUrlInput : string;
  aiEndpointInput : string;
  dUnderstandInput : string;
  dPseudocodeInput : string;
  dImplementInput : string;
  dOptimizeInput : string
}.

Module Options.

(** The [phaseDurations] of the configuration built from the form. *)
Definition phaseDurationsOf (form : OptionsForm) : gmap string Z :=
  <["understand" := orNumber (parseInt (dUnderstandInput form)) 300]>
  (<["pseudocode" := orNumber (parseInt (dPseudocodeInput form)) 600]>
  (<["implement" := orNumber (parseInt (dImplementInput form)) 900]>
  (<["optimize" := orNumber (parseInt (dOptimizeInput form)) 600]> ∅))).

(** [saveConfig()]: the answer is the status shown.  [isValidUrl] is the
    test [new URL(url)] succeeds; [fetched] is what the background script's
    fetch of the problem list answers. *)
Definition saveConfig (isValidUrl : string -> bool) (fetched : list Problem)
    (form : OptionsForm) : Js World string :=
  try_catch (
    let config := mkConfig (trim (problemListUrlInput form)) (phaseDurationsOf form) in
    let aiEndpoint := trim (aiEndpointInput form) in
    (if bool_decide (problemListUrl config <> "") && negb (isValidUrl (problemListUrl config))
     then throw "Invalid problem list URL" else ret tt) ;;
    (if bool_decide (aiEndpoint <> "") && negb (isValidUrl aiEndpoint)
     then throw "Invalid AI endpoint URL" else ret tt) ;;
    Storage.saveConfig (phaseDurations config) ;;
    Background.handleConfigUpdate config fetched ;;
    ret "Configuration saved successfully!")
  (fun message => ret ("Error saving configuration: " +:+ message)).

End Options.

(** ** newtab.js *)

(** The state variables of the page.  [timerInterval] says whether an
    interval is set; [alerts] collects what [showMessage] and [showError]
    displayed.  [phaseStartTime], [userSolutions] and [aiGuidance] are never
    read by the functions below. *)
Record Page : Type := mkPage {
  currentProblem : option Problem;
  currentPhase : string;
  completedPhases : list string;
  timerInterval : bool;
  remainingTime : Z;
  alerts : list string
}.

(** The page together with what the background script sees. *)
Record Sys : Type := mkSys {
  world : World;
  page : Page
}.

Definition set_currentProblem (p : option Problem) (g : Page) : Page :=
  mkPage p (currentPhase g) (completedPhases g) (timerInterval g) (remainingTime g) (alerts g).
Definition set_currentPhase (p : string) (g : Page) : Page :=
  mkPage (currentProblem g) p (completedPhases g) (timerInterval g) (remainingTime g) (alerts g).
Definition set_completedPhases (l : list string) (g : Page) : Page :=
  mkPage (currentProblem g) (currentPhase g) l (timerInterval g) (remainingTime g) (alerts g).
Definition set_timerInterval (b : bool) (g : Page) : Page :=
  mkPage (currentProblem g) (currentPhase g) (completedPhases g) b (remainingTime g) (alerts g).
Definition set_remainingTime (t : Z) (g : Page) : Page :=
  mkPage (currentProblem g) (currentPhase g) (completedPhases g) (timerInterval g) t (alerts g).
Definition set_alerts (l : list string) (g : Page) : Page :=
  mkPage (currentProblem g) (currentPhase g) (completedPhases g) (timerInterval g)
         (remainingTime g) l.

Definition on_page (f : Page -> Page) : Js Sys unit :=
  modify (fun s => mkSys (world s) (f (page s))).

Definition of_page {A} (f : Page -> A) : Js Sys A :=
  gets (fun s => f (page s)).

(** [chrome.runtime.sendMessage] answered by a handler of the background
    script, and the background script run on an event of its own. *)
Definition background {A} (handler : Js World A) : Js Sys A :=
  fun s => let '(r, w) := handler (world s) in (r, mkSys w (page s)).

(** Reading a property of [null] or [undefined] (the text of the TypeError is
    the engine's). *)
Definition TypeError (property : string) : string :=
  "Cannot read properties of undefined (reading '" +:+ property +:+ "')".

(** [l.indexOf(x)]: the first position of [x], -1 when it is absent. *)
Fixpoint indexOf_from (x : string) (l : list string) (i : Z) : Z :=
  match l with
  | [] => -1
  | y :: l' => if bool_decide (y = x) then i else indexOf_from x l' (i + 1)
  end.

Definition indexOf (x : string) (l : list string) : Z := indexOf_from x l 0.

Module NewTab.

Definition showError (message : string) : Js Sys unit :=
  on_page (fun g => set_alerts (alerts g ++ ["Error: " +:+ message]) g).

Definition showMessage (message : string) : Js Sys unit :=
  on_page (fun g => set_alerts (alerts g ++ [message]) g).

(** [currentProblem.url].  [None] stands for [undefined] and for [null], the
    value the page starts with; the text thrown is the one for
    [undefined]. *)
Definition currentProblem_url : Js Sys string :=
  let* problem := of_page currentProblem in
  match problem with
  | Some problem => ret (url problem)
  | None => throw (TypeError "url")
  end.

(** [updateProblemDisplay(problem)] writes to the DOM only, after reading
    [problem.title]. *)
Definition updateProblemDisplay (problem : option Problem) : Js Sys unit :=
  match problem with
  | Some _ => ret tt
  | None => throw (TypeError "title")
  end.

Definition stopTimer : Js Sys unit :=
  on_page (set_timerInterval false).

Definition handlePhaseTimeout : Js Sys unit :=
  let* currentPhase := of_page currentPhase in
  showMessage ("Time's up for the " +:+ currentPhase
               +:+ " phase! You can continue or move to the next phase.").


Definition startTimer (seconds : Z) : Js Sys unit :=
  stopTimer ;;
  on_page (set_remainingTime seconds) ;;
  on_page (set_timerInterval true).

(** The callback given to [setInterval]: it runs while the interval is set. *)
Definition intervalCallback : Js Sys unit :=
  let* running := of_page timerInterval in
  if running : bool then
    on_page (fun g => set_remainingTime (remainingTime g - 1) g) ;;
    let* remainingTime := of_page remainingTime in
    if bool_decide (remainingTime <= 0) then
      stopTimer ;;
      handlePhaseTimeout
    else ret tt
  else ret tt.

Definition phases : list string := ["understand"; "pseudocode"; "implement"; "optimize"].

Definition getNextPhase (currentPhase : string) : option string :=
  let currentIndex := indexOf currentPhase phases in
  if bool_decide (currentIndex < Z.of_nat (length phases) - 1)
  then phases !! Z.to_nat (currentIndex + 1)
  else None.

Definition startPhase (phase : string) : Js Sys unit :=
  try_catch (
    on_page (set_currentPhase phase) ;;
    let* problemUrl := currentProblem_url in
    let* response := background (Background.handleStartPhase phase problemUrl) in
    match response with
    | Error message => throw message
    | Success info => startTimer (start_durationSec info)
    end)
  (fun message => showError ("Failed to start " +:+ phase +:+ " phase: " +:+ message)).

Definition completePhase : Js Sys unit :=
  try_catch (
    stopTimer ;;
    let* phase := of_page currentPhase in
    let* problemUrl := currentProblem_url in
    let* response := background (Background.handleCompletePhase phase problemUrl) in
    match response with
    | Error message => throw message
    | Success _ =>
        on_page (fun g => set_completedPhases (completedPhases g ++ [currentPhase g]) g) ;;
        let* phase := of_page currentPhase in
        match getNextPhase phase with
        | Some nextPhase => startPhase nextPhase
        | None => showMessage "All phases completed! You can now mark the problem as solved."
        end
    end)
  (fun message =>
     let* phase := of_page currentPhase in
     showError ("Failed to complete " +:+ phase +:+ " phase: " +:+ message)).

Definition resetState : Js Sys unit :=
  stopTimer ;;
  on_page (set_currentPhase "understand") ;;
  on_page (set_completedPhases []).

Definition skipProblem : Js Sys unit :=
  try_catch (
    let* response := background Background.handleSkipProblem in
    match response with
    | Error message => throw message
    | Success nextProblem =>
        showMessage "Problem skipped. Moving to next problem..." ;;
        resetState ;;
        on_page (set_currentProblem nextProblem) ;;
        updateProblemDisplay nextProblem ;;
        startPhase "understand"
    end)
  (fun message => showError ("Failed to skip problem: " +:+ message)).

Definition markSolved : Js Sys unit :=
  try_catch (
    let* problemUrl := currentProblem_url in
    let* response := background (Background.handleMarkSolved problemUrl) in
    match response with
    | Error message => throw message
    | Success nextProblem =>
        showMessage "Problem marked as solved! Moving to next problem..." ;;
        resetState ;;
        on_page (set_currentProblem nextProblem) ;;
        updateProblemDisplay nextProblem ;;
        startPhase "understand"
    end)
  (fun message => showError ("Failed to mark problem as solved: " +:+ message)).

(** The [chrome.runtime.onMessage] listener of the page. *)
Definition onMessage (message : option string) : Js Sys unit :=
  match message with
  | Some _ => handlePhaseTimeout
  | None => ret tt
  end.

End NewTab.

(** An alarm reaches the background script, whose [PHASE_TIMEOUT] message,
    if it sends one, reaches the page. *)
Definition alarmEvent (name : string) : Js Sys unit :=
  let* message := background (Background.onAlarm name) in
  NewTab.onMessage message.

(** ** logger.js: the aggregation of [generateWeeklyReport] *)

(** A value of [problemMap] (its [name], computed from the URL, is left
    out). *)
Record ProblemEntry : Type := mkProblemEntry {
  entry_url : string;
  entry_phases : gmap string (list LogEntry);
  entry_solution : option Solution
}.

(** What the report prints for one problem: the total per phase and the
    date of the solution (the Markdown around them is left out). *)
Record ProblemReport : Type := mkProblemReport {
  report_url : string;
  report_phases : gmap string Q;
  report_solved : option string
}.

(** What the report prints: the date it was generated on and, for each key
    of [problemMap], the lines of that problem. *)
Record Report : Type := mkReport {
  report_generated : string;
  report_problems : gmap string ProblemReport
}.

Module Logger.

(** The body of [for (const log of logs)].  Where [problemMap[log.problemUrl]]
    is an inherited property, it has no [phases], and reading a property of
    [undefined] throws; where [phases[log.phase]] is one, it has no [push]. *)
Definition addLog {S} (problemMap : gmap string ProblemEntry) (log : LogEntry)
  : Js S (gmap string ProblemEntry) :=
  let problemMap :=
    match getProperty problemMap (log_problemUrl log) with
    | Missing => <[log_problemUrl log := mkProblemEntry (log_problemUrl log) ∅ None]> problemMap
    | _ => problemMap
    end in
  match getProperty problemMap (log_problemUrl log) with
  | Own entry =>
      let phases :=
        match getProperty (entry_phases entry) (log_phase log) with
        | Missing => <[log_phase log := []]> (entry_phases entry)
        | _ => entry_phases entry
        end in
      match getProperty phases (log_phase log) with
      | Own logs =>
          ret (<[log_problemUrl log :=
                   mkProblemEntry (entry_url entry)
                                  (<[log_phase log := logs ++ [log]]> phases)
                                  (entry_solution entry)]> problemMap)
      | _ => throw "problemMap[log.problemUrl].phases[log.phase].push is not a function"
      end
  | _ => throw ("Cannot read properties of undefined (reading '" +:+ log_phase log +:+ "')")
  end.

(** [for (const log of logs) { ... }] *)
Fixpoint forEachLog {S} (logs : list LogEntry) (problemMap : gmap string ProblemEntry)
  : Js S (gmap string ProblemEntry) :=
  match logs with
  | [] => ret problemMap
  | log :: logs =>
      let* problemMap := addLog problemMap log in
      forEachLog logs problemMap
  end.

(** The body of [for (const solution of solutions)].  Where
    [problemMap[solution.problemUrl]] is an inherited property, the solution
    is stored on that object, which is no value of [problemMap] (for
    [__proto__] it is [Object.prototype] itself, see [onPrototype]). *)
Definition addSolution (problemMap : gmap string ProblemEntry) (solution : Solution)
  : gmap string ProblemEntry :=
  match getProperty problemMap (sol_problemUrl solution) with
  | Missing =>
      <[sol_problemUrl solution :=
          mkProblemEntry (sol_problemUrl solution) ∅ (Some solution)]> problemMap
  | Own entry =>
      <[sol_problemUrl solution :=
          mkProblemEntry (entry_url entry) (entry_phases entry) (Some solution)]> problemMap
  | Inherited => problemMap
  end.

(** [logs.reduce((sum, log) => sum + log.duration, 0)] *)
Definition totalDuration (logs : list LogEntry) : Q :=
  fold_left (fun sum log => Qplus sum (log_duration log)) logs (inject_Z 0).

(** The lines of one problem; [toLocaleDateString] is the rendering of a date
    in the locale and time zone of the browser. *)
Definition reportOf (toLocaleDateString : Z -> string) (problem : ProblemEntry)
  : ProblemReport :=
  mkProblemReport (entry_url problem)
                  (totalDuration <$> entry_phases problem)
                  ((fun solution => toLocaleDateString (sol_timestamp solution))
                     <$> entry_solution problem).

Definition generateWeeklyReport (toLocaleDateString : Z -> string) : Js World Report :=
  let* logs := Storage.getLogs in
  let* solutions := Storage.getSolutions in
  let* problemMap := forEachLog logs ∅ in
  let problemMap := fold_left addSolution solutions problemMap in
  let* now := gets clock in
  ret (mkReport (toLocaleDateString now) (reportOf toLocaleDateString <$> problemMap)).

Definition logPhaseTiming (problemUrl phaseName : string) (start end_ : Z)
  : Js World LogEntry :=
  let duration := Qmake (end_ - start) 1000 in
  let* timestamp := gets clock in
  let logEntry := mkLogEntry timestamp problemUrl phaseName duration start end_ in
  let* logs := Storage.getLogs in
  modify (set_logs (logs ++ [logEntry])) ;;
  ret logEntry.

(** The longest prefix of [s] without [sep]. *)
Fixpoint takeUntil (sep : ascii) (s : string) : string :=
  match s with
  | EmptyString => ""
  | String c s' => if bool_decide (c = sep) then "" else String c (takeUntil sep s')
  end.

(** [s] without the prefix [prefix], if it starts with it. *)
Fixpoint stripPrefix (prefix s : string) : option string :=
  match prefix, s with
  | EmptyString, _ => Some s
  | String a prefix, String b s => if bool_decide (a = b) then stripPrefix prefix s else None
  | String _ _, EmptyString => None
  end.

(** The group of [/problems\/([^\/]+)/] when the expression matches at the
    start of [s]. *)
Definition problemsGroupHere (s : string) : option string :=
  match stripPrefix "problems/" s with
  | Some rest =>
      match takeUntil "/" rest with
      | EmptyString => None
      | name => Some name
      end
  | None => None
  end.

(** [url.match(/problems\/([^\/]+)/)]: the group of the leftmost match. *)
Fixpoint problemsGroup (url : string) : option string :=
  match problemsGroupHere url with
  | Some name => Some name
  | None =>
      match url with
      | EmptyString => None
      | String _ url => problemsGroup url
      end
  end.

Definition extractProblemName (url : string) : string :=
  match problemsGroup url with
  | Some name => name
  | None =>
      let parts := filter (fun part => part <> "") (split "/" url) in
      default "unknown-problem" (last parts)
  end.
End Logger.

(** The state a computation ends in. *)
Definition exec {S A} (c : Js S A) (s : S) : S := snd (c s).

(** ** Vocabulary of the statements *)

(** The phase durations [getConfig()] answers in world [w]. *)
Definition durations (w : World) : gmap string Z :=
  default Storage.getDefaultConfig (config w).

(** The world after an interval of [durationSec] seconds was started for
    [phase]: its alarm replaces the one of that name, the stored record is
    the new one. *)
Definition started (phase problemUrl : string) (durationSec : Z) (w : World) : World :=
  set_currentPhaseItem (Some (mkPhaseRecord problemUrl phase (clock w)))
    (set_alarms (<[phase := clock w + durationSec * 1000]> (delete phase (alarms w))) w).

(** The entry [logPhase] writes at instant [now] for the stored record [r]. *)
Definition completedEntry (problemUrl phase : string) (r : PhaseRecord) (now : Z) : LogEntry :=
  mkLogEntry now problemUrl phase (Qmake (now - rec_startTime r) 1000) (rec_startTime r) now.

(** Alarm [name] is not the alarm of the stored record. *)
Definition stale (name : string) (w : World) : Prop :=
  match currentPhaseItem w with
  | None => True
  | Some r => rec_phase r <> name
  end.

(** What can happen to an interval of phase [p] once it is started: the page
    asks to complete a phase, the timeout of [p] is handled, time passes. *)
Inductive Event : Type :=
| ManualComplete (phase problemUrl : string)
| TimeoutFires
| Elapse (d : Z).

Definition step (p : string) (e : Event) (w : World) : World :=
  match e with
  | ManualComplete phase problemUrl =>
      exec (Background.handleCompletePhase phase problemUrl) w
  | TimeoutFires => exec (Background.handlePhaseTimeout p) w
  | Elapse d => elapse d w
  end.

Definition run (p : string) (events : list Event) (w : World) : World :=
  fold_left (fun w e => step p e w) events w.

Definition ends_interval (e : Event) : bool :=
  match e with
  | Elapse _ => false
  | _ => true
  end.

(** The records of the log for one problem and one phase, in log order, and
    the sum of their durations. *)
Definition recordsOf (problemUrl phase : string) (logs : list LogEntry) : list LogEntry :=
  filter (fun log => log_problemUrl log = problemUrl /\ log_phase log = phase) logs.

Definition sumOfDurations (records : list LogEntry) : Q :=
  fold_left Qplus (log_duration <$> records) (inject_Z 0).

(** The total the report shows for a problem and a phase, if it shows one. *)
Definition reportedTotal (report : gmap string ProblemReport) (problemUrl phase : string)
  : option Q :=
  report !! problemUrl ≫= fun r => report_phases r !! phase.

(** The list kept in [problemMap[problemUrl].phases[phase]], if there is
    one. *)
Definition bucket (problemMap : gmap string ProblemEntry) (problemUrl phase : string)
  : option (list LogEntry) :=
  problemMap !! problemUrl ≫= fun e => entry_phases e !! phase.

(** The page after [showMessage] or [showError] displayed [message]. *)
Definition alerted (message : string) (g : Page) : Page :=
  set_alerts (alerts g ++ [message]) g.

(** The page after [startPhase(phase)] got a successful answer announcing
    [durationSec] seconds. *)
Definition startedPage (phase : string) (durationSec : Z) (g : Page) : Page :=
  set_timerInterval true
    (set_remainingTime durationSec (set_timerInterval false (set_currentPhase phase g))).

(** The page after [resetState()]. *)
Definition resetPage (g : Page) : Page :=
  set_completedPhases [] (set_currentPhase "understand" (set_timerInterval false g)).

(** The world after [handleSkipProblem]. *)
Definition skipped (w : World) : World :=
  set_currentIndex (Background.nextIndex (default 0%nat (currentIndex w)) (problems w)) w.

(** The problem [handleSkipProblem] answers with. *)
Definition nextProblemOf (w : World) : option Problem :=
  Background.problemAt (problems w)
    (Background.nextIndex (default 0%nat (currentIndex w)) (problems w)).

(** The world after [handleMarkSolved(problemUrl)]. *)
Definition solved (problemUrl : string) (w : World) : World :=
  skipped (set_solutions (solutions w ++ [mkSolution (clock w) problemUrl]) w).

(** The page after a successful answer to [COMPLETE_PHASE]. *)
Definition completedPage (g : Page) : Page :=
  set_completedPhases (completedPhases g ++ [currentPhase g]) (set_timerInterval false g).

(** ** The two handlers of a race, between their [await]s *)

(** The arguments [storage.logPhase] was called with. *)
Record LogArgs : Type := mkLogArgs {
  arg_problemUrl : string;
  arg_phase : string;
  arg_start : Z;
  arg_end : Z
}.

(** Where [handlePhaseTimeout] stands: not yet run; inside [logPhase], at
    [await getLogs()], holding the array it read; at [await ...set({ logs })];
    returned, with the message it sent if any. *)
Inductive TimeoutPc : Type :=
| TimeoutEntered
| TimeoutAwaitsLogs (args : LogArgs) (snapshot : list LogEntry)
| TimeoutAwaitsSet
| TimeoutReturned (message : option string).

(** Where [handleCompletePhase] stands: not yet run; at
    [await timer.stopPhaseTimer(phase)]; inside [logPhase] at
    [await getLogs()]; at [await ...set({ logs })]; returned. *)
Inductive CompletePc : Type :=
| CompleteEntered
| CompleteAwaitsClear
| CompleteAwaitsLogs (args : LogArgs) (duration : Q) (snapshot : list LogEntry)
| CompleteAwaitsSet (duration : Q)
| CompleteReturned (response : Response CompleteInfo).

(** [logPhase] resumed after [getLogs()]: the entry is pushed on the array
    that was read and the array is stored. *)
Definition pushAndSet (args : LogArgs) (snapshot : list LogEntry) (w : World) : World :=
  set_logs (snapshot ++ [mkLogEntry (clock w) (arg_problemUrl args) (arg_phase args)
                           (Qmake (arg_end args - arg_start args) 1000)
                           (arg_start args) (arg_end args)]) w.

(** [handlePhaseTimeout(phase)] run up to its next [await]. *)
Definition timeoutSegment (phase : string) (pc : TimeoutPc) (w : World) : TimeoutPc * World :=
  match pc with
  | TimeoutEntered =>
      match Timer.getCurrentPhase w with
      | (Return (Some current), w) =>
          if bool_decide (rec_phase current <> phase) then (TimeoutReturned None, w)
          else
            let w := set_notifications (notifications w ++ [phase]) w in
            match Timer.completeCurrentPhase w with
            | (Return (Some record), w) =>
                (TimeoutAwaitsLogs
                   (mkLogArgs (rec_problemUrl (completed record)) phase
                              (rec_startTime (completed record)) (clock w))
                   (logs w), w)
            | (_, w) => (TimeoutReturned (Some phase), w)
            end
      | (_, w) => (TimeoutReturned None, w)
      end
  | TimeoutAwaitsLogs args snapshot => (TimeoutAwaitsSet, pushAndSet args snapshot w)
  | TimeoutAwaitsSet => (TimeoutReturned (Some phase), w)
  | TimeoutReturned message => (TimeoutReturned message, w)
  end.

(** [handleCompletePhase(phase, problemUrl)] run up to its next [await]. *)
Definition completeSegment (phase problemUrl : string) (pc : CompletePc) (w : World)
  : CompletePc * World :=
  match pc with
  | CompleteEntered => (CompleteAwaitsClear, exec (Timer.stopPhaseTimer phase) w)
  | CompleteAwaitsClear =>
      match Timer.completeCurrentPhase w with
      | (Return (Some record), w) =>
          (CompleteAwaitsLogs
             (mkLogArgs problemUrl phase (rec_startTime (completed record)) (clock w))
             (duration record) (logs w), w)
      | (_, w) => (CompleteReturned (Error "No active phase found"), w)
      end
  | CompleteAwaitsLogs args duration snapshot =>
      (CompleteAwaitsSet duration, pushAndSet args snapshot w)
  | CompleteAwaitsSet duration =>
      (CompleteReturned (Success (mkCompleteInfo phase duration)), w)
  | CompleteReturned response => (CompleteReturned response, w)
  end.

(** A timeout of phase [p] and a manual completion in flight together. *)
Record Race : Type := mkRace {
  race_world : World;
  timeout_pc : TimeoutPc;
  complete_pc : CompletePc
}.

(** Whose turn it is to run up to its next [await], or time passing. *)
Inductive Turn : Type :=
| TimeoutTurn
| CompleteTurn
| Wait (d : Z).

Definition raceStep (p phase problemUrl : string) (t : Turn) (st : Race) : Race :=
  match t with
  | TimeoutTurn =>
      let '(pc, w) := timeoutSegment p (timeout_pc st) (race_world st) in
      mkRace w pc (complete_pc st)
  | CompleteTurn =>
      let '(pc, w) := completeSegment phase problemUrl (complete_pc st) (race_world st) in
      mkRace w (timeout_pc st) pc
  | Wait d => mkRace (elapse d (race_world st)) (timeout_pc st) (complete_pc st)
  end.

Definition raceRun (p phase problemUrl : string) (schedule : list Turn) (st : Race) : Race :=
  fold_left (fun st t => raceStep p phase problemUrl t st) schedule st.

(** The states a race goes through, for a log that was [logs0] when the
    interval of record [r] was running and neither handler had run. *)
Definition raceInv (r : PhaseRecord) (logs0 : list LogEntry) (st : Race) : Prop :=
  let w := race_world st in
  let untouched := currentPhaseItem w = Some r /\ logs w = logs0 in
  let taken snapshot := currentPhaseItem w = None /\ logs w = logs0 /\ snapshot = logs0 in
  let written := currentPhaseItem w = None /\ exists entry, logs w = logs0 ++ [entry] in
  match timeout_pc st, complete_pc st with
  | TimeoutEntered, (CompleteEntered | CompleteAwaitsClear) => untouched
  | TimeoutEntered, CompleteAwaitsLogs _ _ snapshot => taken snapshot
  | TimeoutEntered, (CompleteAwaitsSet _ | CompleteReturned (Success _)) => written
  | TimeoutAwaitsLogs _ snapshot,
    (CompleteEntered | CompleteAwaitsClear | CompleteReturned (Error _)) => taken snapshot
  | (TimeoutAwaitsSet | TimeoutReturned (Some _)),
    (CompleteEntered | CompleteAwaitsClear | CompleteReturned (Error _)) => written
  | TimeoutReturned None, CompleteAwaitsLogs _ _ snapshot => taken snapshot
  | TimeoutReturned None, (CompleteAwaitsSet _ | CompleteReturned (Success _)) => written
  | _, _ => False
  end.

(** [f] applied [n] times. *)
Fixpoint iterate {A} (n : nat) (f : A -> A) (a : A) : A :=
  match n with
  | O => a
  | S n => iterate n f (f a)
  end.

(** Every handler that was entered has returned, and one was entered. *)
Definition settled (st : Race) : bool :=
  match timeout_pc st, complete_pc st with
  | TimeoutReturned _, (CompleteReturned _ | CompleteEntered) => true
  | TimeoutEntered, CompleteReturned _ => true
  | _, _ => false
  end.

(** ** Vocabulary of the further properties *)

(** A duration for which the quotient [durationSec / 60] and the delay in
    milliseconds are exact in floating point as well: a whole number of
    minutes, of a size far below 2^53 milliseconds. *)
Definition wholeMinutes (durationSec : Z) : bool :=
  (durationSec mod 60 =? 0) && (Z.abs durationSec <=? 2 ^ 31).

(** A log entry whose problem URL or phase is a name every object inherits. *)
Definition inheritedNames (log : LogEntry) : bool :=
  inheritedName (log_problemUrl log) || inheritedName (log_phase log).

(** A solution stored for the URL [__proto__]: the report writes it on
    [Object.prototype], and what every object inherits from then on is outside
    the model. *)
Definition onPrototype (solution : Solution) : bool :=
  bool_decide (sol_problemUrl solution = "__proto__").

(** The text of a duration input gives no number, or one that floating
    point holds exactly. *)
Definition safeInput (input : string) : bool :=
  match parseInt input with
  | Some n => Z.abs n <=? 2 ^ 53
  | None => true
  end.

(** A rendering of dates that tells two days apart: the number of the day
    in universal time. *)
Definition utcDay (t : Z) : string := toString (t / 86400000).

(** No key of the map, and no phase of its entries, is a name every object
    inherits: so it is for every map the loop over the logs builds. *)
Definition cleanMap (problemMap : gmap string ProblemEntry) : Prop :=
  forall problemUrl entry,
    problemMap !! problemUrl = Some entry ->
    inheritedName problemUrl = false
    /\ forall phase logs, entry_phases entry !! phase = Some logs -> inheritedName phase = false.

(** Whether character [c] occurs in [s]. *)
Fixpoint occurs (c : ascii) (s : string) : bool :=
  match s with
  | EmptyString => false
  | String c' s' => bool_decide (c' = c) || occurs c s'
  end.

(** [fields.join(sep)] for a one-character [sep]. *)
Fixpoint join (sep : ascii) (fields : list string) : string :=
  match fields with
  | [] => ""
  | [field] => field
  | field :: fields => field +:+ String sep (join sep fields)
  end.

(** A decimal digit other than 0. *)
Definition isLeadingDigit (c : ascii) : bool :=
  let n := N_of_ascii c in ((49 <=? n) && (n <=? 57))%N.

(** The cron expression made of five fields. *)
Definition cron (minute hour dayOfMonth month dayOfWeek : string) : string :=
  join " " [minute; hour; dayOfMonth; month; dayOfWeek].

(** A field that asks for the number [n], or for nothing. *)
Definition cronField (n : option Z) : string :=
  match n with
  | Some n => toString n
  | None => "*"
  end.

(** A field that asks for one of the numbers of a list, or for nothing. *)
Definition cronListField (l : option (list Z)) : string :=
  match l with
  | Some l => join "," (toString <$> l)
  | None => "*"
  end.

(** The key [`q${index}`] of an answer. *)
Definition answerKey (index : nat) : string := "q" +:+ toString (Z.of_nat index).

(** The result [gradeQuiz] pushes for the question at [index]. *)
Definition resultOf (answers : gmap string string) (index : nat) (question : Question)
  : QuestionResult :=
  mkQuestionResult index (answers !! answerKey index) (correctAnswer question)
    (bool_decide (answers !! answerKey index = Some (correctAnswer question))).

(** The number of results marked correct. *)
Definition correctCount (results : list QuestionResult) : nat :=
  length (filter (fun r => isCorrect r = true) results).

(** The world after [handleConfigUpdate(config)], the fetch of the problem
    list answering [fetched]. *)
Definition reconfigured (config : Config) (fetched : list Problem) (w : World) : World :=
  let w := set_config (Some (phaseDurations config)) w in
  let w := if bool_decide (problemListUrl config <> "")
           then set_currentIndex (Some 0%nat) (set_problems fetched w) else w in
  set_alarms {["quizReminderCheck" := clock w + 86400000]} w.

(** The duration inputs of the form: the phase each one sets, its text and
    the value used when the text gives no number. *)
Definition durationInputs (form : OptionsForm) : list (string * (string * Z)) :=
  [("understand", (dUnderstandInput form, 300));
   ("pseudocode", (dPseudocodeInput form, 600));
   ("implement", (dImplementInput form, 900));
   ("optimize", (dOptimizeInput form, 600))].

(** [url] passes the test [!url || isValidUrl(url)] of [saveConfig]. *)
Definition acceptedUrl (isValidUrl : string -> bool) (url : string) : bool :=
  bool_decide (url = "") || isValidUrl url.

(** [completePhase()] called [d] milliseconds later. *)
Definition completeAfter (d : Z) (s : Sys) : Sys :=
  exec NewTab.completePhase (mkSys (elapse d (world s)) (page s)).

(** The message of the page's [handlePhaseTimeout]. *)
Definition timeUp (phase : string) : string :=
  "Time's up for the " +:+ phase +:+ " phase! You can continue or move to the next phase.".

(** The first event of a list that ends the interval, with the time that
    passes before it. *)
Fixpoint firstEnding (events : list Event) : option (Z * Event) :=
  match events with
  | [] => None
  | Elapse d :: events =>
      match firstEnding events with
      | Some (elapsed, e) => Some (d + elapsed, e)
      | None => None
      end
  | e :: _ => Some (0, e)
  end.

(** The entry an ending event writes for the interval of [p] started for
    [problemUrl] at [start], when it comes [elapsed] milliseconds later: a
    manual completion names the phase and the problem itself. *)
Definition entryOf (p problemUrl : string) (start elapsed : Z) (e : Event) : LogEntry :=
  match e with
  | ManualComplete phase problemUrl' =>
      mkLogEntry (start + elapsed) problemUrl' phase (Qmake elapsed 1000)
                 start (start + elapsed)
  | _ =>
      mkLogEntry (start + elapsed) problemUrl p (Qmake elapsed 1000) start (start + elapsed)
  end.

(** The notifications an ending event creates. *)
Definition notifiedBy (p : string) (e : Event) : list string :=
  match e with
  | TimeoutFires => [p]
  | _ => []
  end.

(** ** Sample states *)

Definition twoSum : Problem :=
  mkProblem "Two Sum" "https://leetcode.com/problems/two-sum/" "Easy".
Definition addTwoNumbers : Problem :=
  mkProblem "Add Two Numbers" "https://leetcode.com/problems/add-two-numbers/" "Medium".

(** Nothing stored but two problems; the default configuration applies. *)
Definition freshWorld : World :=
  mkWorld 0 ∅ None None [] [] [twoSum; addTwoNumbers] (Some 0%nat) [].

(** The page on its first problem, before any phase was started. *)
Definition freshSys : Sys :=
  mkSys freshWorld (mkPage (Some twoSum) "understand" [] false 0 []).

(** A stored configuration with a negative duration. *)
Definition negativeConfigWorld : World :=
  mkWorld 0 ∅ None (Some (<["understand" := -5]> ∅)) [] [] [twoSum] (Some 0%nat) [].

(** The first problem with its [understand] phase running. *)
Definition understanding : Sys := exec (NewTab.startPhase "understand") freshSys.

(** The same problem two completed phases and some minutes later. *)
Definition implementing : Sys :=
  let s1 := exec NewTab.completePhase
              (mkSys (elapse 120000 (world understanding)) (page understanding)) in
  exec NewTab.completePhase (mkSys (elapse 240000 (world s1)) (page s1)).

(** The form used to try the options page: a number, a negative number, a
    text that is no number and an empty input. *)
Definition sampleForm : OptionsForm :=
  mkOptionsForm "" " http://localhost:11434 " "300" "-5" "abc" "".

(** * Properties *)

(** ** The handlers of the background script, case by case *)

Ltac js := cbv [Background.handleStartPhase Background.handleCompletePhase
  Background.handlePhaseTimeout Background.handleSkipProblem Background.handleMarkSolved
  Background.fireAlarm Background.respond
  Timer.startPhaseTimer Timer.stopPhaseTimer Timer.getRemainingTime Timer.recordPhaseStart
  Timer.getCurrentPhase Timer.completeCurrentPhase
  Storage.getConfig Storage.getLogs Storage.logPhase Storage.getSolutions Storage.logSolution
  Storage.getState Storage.setCurrentIndex
  Alarms.create Alarms.clear Alarms.find
  bind ret throw try_catch gets modify exec fst snd].

Lemma delay_ms_seconds (durationSec : Z) :
  Alarms.delay_ms (Qdiv (inject_Z durationSec) (inject_Z 60)) = durationSec * 1000.
Proof.
  unfold Alarms.delay_ms.
  rewrite <- (Qfloor_Z (durationSec * 1000)). apply Qfloor_comp.
  unfold Qeq, Qdiv, Qmult, Qinv, inject_Z; simpl. lia.
Qed.

Lemma handleStartPhase_ok (phase problemUrl : string) (d : Z) (w : World) :
  durations w !! phase = Some d -> d <> 0 ->
  Background.handleStartPhase phase problemUrl w
  = (Return (Success (mkStartInfo phase d (clock w))), started phase problemUrl d w).
Proof.
  intros Hd Hnz. unfold durations in Hd. js. rewrite Hd.
  destruct d; [congruence | |]; rewrite delay_ms_seconds; reflexivity.
Qed.

Lemma handleStartPhase_invalid (phase problemUrl : string) (w : World) :
  durations w !! phase = None \/ durations w !! phase = Some 0 ->
  Background.handleStartPhase phase problemUrl w
  = (Return (Error ("Invalid phase: " +:+ phase)), w).
Proof.
  unfold durations. intros [Hd | Hd]; js; rewrite Hd; reflexivity.
Qed.

(** A successful start is the start of a phase with a non-zero duration. *)
Lemma handleStartPhase_success (phase problemUrl : string) (info : StartInfo) (w : World) :
  fst (Background.handleStartPhase phase problemUrl w) = Return (Success info) ->
  exists d, durations w !! phase = Some d /\ d <> 0
            /\ info = mkStartInfo phase d (clock w)
            /\ exec (Background.handleStartPhase phase problemUrl) w
               = started phase problemUrl d w.
Proof.
  intros H. destruct (durations w !! phase) as [d|] eqn:Hd.
  - destruct (Z.eq_dec d 0) as [-> | Hnz].
    + rewrite handleStartPhase_invalid in H by (right; exact Hd). discriminate.
    + unfold exec. rewrite (handleStartPhase_ok _ _ d) in * by assumption.
      exists d. repeat split; try assumption. cbn in H. congruence.
  - rewrite handleStartPhase_invalid in H by (left; exact Hd). discriminate.
Qed.

Lemma handleCompletePhase_active (phase problemUrl : string) (r : PhaseRecord) (w : World) :
  currentPhaseItem w = Some r ->
  Background.handleCompletePhase phase problemUrl w
  = (Return (Success (mkCompleteInfo phase (Qmake (clock w - rec_startTime r) 1000))),
     set_logs (logs w ++ [completedEntry problemUrl phase r (clock w)])
       (set_currentPhaseItem None (set_alarms (delete phase (alarms w)) w))).
Proof. intros Hr. js. cbn. rewrite Hr. reflexivity. Qed.

Lemma handleCompletePhase_idle (phase problemUrl : string) (w : World) :
  currentPhaseItem w = None ->
  Background.handleCompletePhase phase problemUrl w
  = (Return (Error "No active phase found"), set_alarms (delete phase (alarms w)) w).
Proof. intros Hr. js. cbn. rewrite Hr. reflexivity. Qed.

Lemma handlePhaseTimeout_active (r : PhaseRecord) (w : World) :
  currentPhaseItem w = Some r ->
  Background.handlePhaseTimeout (rec_phase r) w
  = (Return (Some (rec_phase r)),
     set_logs (logs w ++ [completedEntry (rec_problemUrl r) (rec_phase r) r (clock w)])
       (set_currentPhaseItem None
          (set_notifications (notifications w ++ [rec_phase r]) w))).
Proof.
  intros Hr. js. rewrite Hr.
  rewrite bool_decide_eq_false_2 by (intros H; apply H; reflexivity).
  cbn. rewrite Hr. reflexivity.
Qed.

Lemma handlePhaseTimeout_stale (name : string) (w : World) :
  stale name w -> Background.handlePhaseTimeout name w = (Return None, w).
Proof.
  unfold stale. intros Hs. js. destruct (currentPhaseItem w) as [r|]; [|reflexivity].
  rewrite bool_decide_eq_true_2 by assumption. reflexivity.
Qed.

(** ** One interval, one record *)

Section Lifecycle.
Variable p : string.

Lemma step_idle (e : Event) (w : World) :
  currentPhaseItem w = None ->
  currentPhaseItem (step p e w) = None /\ logs (step p e w) = logs w.
Proof.
  intros Hidle. destruct e as [phase problemUrl | | d]; cbn [step].
  - unfold exec. rewrite handleCompletePhase_idle by assumption. split; [exact Hidle | reflexivity].
  - unfold exec.
    rewrite handlePhaseTimeout_stale by (unfold stale; rewrite Hidle; exact I).
    split; [exact Hidle | reflexivity].
  - split; [exact Hidle | reflexivity].
Qed.

Lemma run_idle (events : list Event) (w : World) :
  currentPhaseItem w = None ->
  currentPhaseItem (run p events w) = None /\ logs (run p events w) = logs w.
Proof.
  revert w. induction events as [|e events IH]; intros w Hidle; [split; [exact Hidle|reflexivity]|].
  cbn [run fold_left]. destruct (step_idle e w Hidle) as [Hi Hl].
  destruct (IH _ Hi) as [Hi' Hl']. fold (run p events (step p e w)).
  split; [exact Hi' | congruence].
Qed.

(** An ending event on the running interval of [p] writes its one record. *)
Lemma step_active (e : Event) (r : PhaseRecord) (w : World) :
  currentPhaseItem w = Some r -> rec_phase r = p -> ends_interval e = true ->
  currentPhaseItem (step p e w) = None
  /\ exists entry, logs (step p e w) = logs w ++ [entry]
                   /\ log_start entry = rec_startTime r
                   /\ log_end entry = clock w.
Proof.
  intros Hr Hp He. destruct e as [phase problemUrl | | d]; cbn [step]; [| |discriminate].
  - unfold exec. rewrite (handleCompletePhase_active _ _ r) by assumption.
    split; [reflexivity|]. eexists. split; [reflexivity|]. split; reflexivity.
  - unfold exec. subst p.
    rewrite (handlePhaseTimeout_active r) by assumption.
    split; [reflexivity|]. eexists. split; [reflexivity|]. split; reflexivity.
Qed.

Lemma run_active (events : list Event) (r : PhaseRecord) (w : World) :
  currentPhaseItem w = Some r -> rec_phase r = p ->
  (existsb ends_interval events = true ->
     exists entry, logs (run p events w) = logs w ++ [entry]
                   /\ log_start entry = rec_startTime r)
  /\ (existsb ends_interval events = false -> logs (run p events w) = logs w).
Proof.
  revert w. induction events as [|e events IH]; intros w Hr Hp.
  - split; [discriminate | reflexivity].
  - cbn [existsb run fold_left]. fold (run p events (step p e w)).
    destruct (ends_interval e) eqn:He; cbn [orb].
    + split; [intros _ | discriminate].
      destruct (step_active e r w Hr Hp He) as [Hidle [entry [Hl [Hs _]]]].
      destruct (run_idle events _ Hidle) as [_ Hl'].
      exists entry. split; [congruence | exact Hs].
    + destruct e as [? ? | | d]; try discriminate.
      apply (IH (elapse d w)); assumption.
Qed.
End Lifecycle.

(** ** The race of a timeout and a manual completion, [await] by [await] *)

Lemma timeoutSegments_handler (phase : string) (w : World) :
  exists message,
    iterate 3 (fun '(pc, w) => timeoutSegment phase pc w) (TimeoutEntered, w)
    = (TimeoutReturned message, exec (Background.handlePhaseTimeout phase) w)
    /\ fst (Background.handlePhaseTimeout phase w) = Return message.
Proof.
  unfold exec.
  destruct (currentPhaseItem w) as [r|] eqn:Hr;
    [destruct (decide (rec_phase r = phase)) as [<- | Hne]|].
  - rewrite (handlePhaseTimeout_active r) by assumption.
    exists (Some (rec_phase r)). split; [|reflexivity].
    cbv [iterate timeoutSegment Timer.getCurrentPhase gets]. rewrite Hr.
    rewrite bool_decide_eq_false_2 by (intros H; apply H; reflexivity).
    cbv [Timer.completeCurrentPhase Timer.getCurrentPhase bind ret gets modify].
    cbn [currentPhaseItem set_notifications]. rewrite Hr. reflexivity.
  - rewrite handlePhaseTimeout_stale by (unfold stale; rewrite Hr; exact Hne).
    exists None. split; [|reflexivity].
    cbv [iterate timeoutSegment Timer.getCurrentPhase gets]. rewrite Hr.
    rewrite bool_decide_eq_true_2 by assumption. reflexivity.
  - rewrite handlePhaseTimeout_stale by (unfold stale; rewrite Hr; exact I).
    exists None. split; [|reflexivity].
    cbv [iterate timeoutSegment Timer.getCurrentPhase gets]. rewrite Hr. reflexivity.
Qed.

Lemma completeSegments_handler (phase problemUrl : string) (w : World) :
  exists response,
    iterate 4 (fun '(pc, w) => completeSegment phase problemUrl pc w) (CompleteEntered, w)
    = (CompleteReturned response, exec (Background.handleCompletePhase phase problemUrl) w)
    /\ fst (Background.handleCompletePhase phase problemUrl w) = Return response.
Proof.
  unfold exec. destruct (currentPhaseItem w) as [r|] eqn:Hr.
  - rewrite (handleCompletePhase_active _ _ r) by assumption.
    eexists. split; [|reflexivity].
    cbv [iterate completeSegment Timer.stopPhaseTimer Alarms.clear exec snd
         Timer.completeCurrentPhase Timer.getCurrentPhase bind ret gets modify].
    cbn [currentPhaseItem set_alarms]. rewrite Hr. reflexivity.
  - rewrite handleCompletePhase_idle by assumption.
    eexists. split; [|reflexivity].
    cbv [iterate completeSegment Timer.stopPhaseTimer Alarms.clear exec snd
         Timer.completeCurrentPhase Timer.getCurrentPhase bind ret gets modify].
    cbn [currentPhaseItem set_alarms]. rewrite Hr. reflexivity.
Qed.

Lemma raceStep_inv (p phase problemUrl : string) (r : PhaseRecord) (logs0 : list LogEntry)
    (t : Turn) (st : Race) :
  rec_phase r = p -> raceInv r logs0 st -> raceInv r logs0 (raceStep p phase problemUrl t st).
Proof.
  intros Hp. destruct st as [w tpc mpc]. unfold raceInv. cbn [race_world timeout_pc complete_pc].
  destruct t as [| | d].
  - (* the timeout handler runs *)
    cbn [raceStep race_world timeout_pc complete_pc].
    destruct tpc as [|args snapshot| |[message|]];
      cbv [timeoutSegment Timer.getCurrentPhase Timer.completeCurrentPhase pushAndSet
           bind ret gets modify]; cbn [race_world timeout_pc complete_pc].
    + destruct mpc as [| |margs md msnap|md|[info|m]]; intros H;
        try contradiction;
        try (destruct H as [Hslot Hrest]; rewrite Hslot;
             cbn [race_world timeout_pc complete_pc]; tauto).
      * destruct H as [Hslot Hlogs]. rewrite Hslot.
        rewrite bool_decide_eq_false_2 by (intros H; apply H; exact Hp).
        cbn. rewrite Hslot. cbn. auto.
      * destruct H as [Hslot Hlogs]. rewrite Hslot.
        rewrite bool_decide_eq_false_2 by (intros H; apply H; exact Hp).
        cbn. rewrite Hslot. cbn. auto.
    + destruct mpc as [| |margs md msnap|md|[info|m]]; intros H; try contradiction;
        destruct H as [Hslot [Hlogs ->]]; cbn; (split; [assumption | eexists; reflexivity]).
    + destruct mpc as [| |margs md msnap|md|[info|m]]; intros H; try contradiction; exact H.
    + destruct mpc as [| |margs md msnap|md|[info|m]]; intros H; try contradiction; exact H.
    + destruct mpc as [| |margs md msnap|md|[info|m]]; intros H; try contradiction; exact H.
  - (* the completion handler runs *)
    cbn [raceStep race_world timeout_pc complete_pc].
    destruct mpc as [| |margs md msnap|md|[info|m]];
      cbv [completeSegment Timer.stopPhaseTimer Alarms.clear exec snd
           Timer.getCurrentPhase Timer.completeCurrentPhase pushAndSet
           bind ret gets modify]; cbn [race_world timeout_pc complete_pc].
    + destruct tpc as [|args snapshot| |[message|]]; intros H; try contradiction; exact H.
    + destruct tpc as [|args snapshot| |[message|]]; intros H; try contradiction;
        destruct H as [Hslot Hrest]; rewrite Hslot; cbn; auto.
    + destruct tpc as [|args snapshot| |[message|]]; intros H; try contradiction;
        destruct H as [Hslot [Hlogs ->]]; cbn; (split; [assumption | eexists; reflexivity]).
    + destruct tpc as [|args snapshot| |[message|]]; intros H; try contradiction; exact H.
    + destruct tpc as [|args snapshot| |[message|]]; intros H; try contradiction; exact H.
    + destruct tpc as [|args snapshot| |[message|]]; intros H; try contradiction; exact H.
  - (* time passes *)
    cbn [raceStep race_world timeout_pc complete_pc].
    destruct tpc as [|args snapshot| |[message|]], mpc as [| |margs md msnap|md|[info|m]];
      intros H; exact H.
Qed.

Lemma raceRun_inv (p phase problemUrl : string) (r : PhaseRecord) (logs0 : list LogEntry)
    (schedule : list Turn) (st : Race) :
  rec_phase r = p -> raceInv r logs0 st ->
  raceInv r logs0 (raceRun p phase problemUrl schedule st).
Proof.
  intros Hp. revert st. induction schedule as [|t schedule IH]; intros st Hinv; [exact Hinv|].
  cbn [raceRun fold_left]. apply IH. apply raceStep_inv; assumption.
Qed.

Lemma race_one_record (p phase problemUrl : string) (r : PhaseRecord) (w : World)
    (schedule : list Turn) :
  currentPhaseItem w = Some r -> rec_phase r = p ->
  let final := raceRun p phase problemUrl schedule (mkRace w TimeoutEntered CompleteEntered) in
  (logs (race_world final) = logs w
   \/ exists entry, logs (race_world final) = logs w ++ [entry])
  /\ (settled final = true -> exists entry, logs (race_world final) = logs w ++ [entry]).
Proof.
  intros Hr Hp final.
  assert (Hinv : raceInv r (logs w) final).
  { apply raceRun_inv; [exact Hp|]. split; [exact Hr | reflexivity]. }
  clearbody final. destruct final as [w' tpc mpc]. unfold raceInv, settled in *.
  cbn [race_world timeout_pc complete_pc] in *.
  destruct tpc as [|args snapshot| |[message|]], mpc as [| |margs md msnap|md|[info|m]];
    try contradiction;
    repeat match goal with H : _ /\ _ |- _ => destruct H end;
    (split; [solve [auto] | solve [auto | discriminate]]).
Qed.

(** C1. An interval started by [handleStartPhase] gets exactly one record in
    the log, whatever manual completions and timeouts of its phase follow, in
    whatever order and however much time passes in between: the first of them
    writes the record and every later one writes nothing.  While none has
    happened the log is as it was.  In particular a manual completion that
    comes after the timeout answers "No active phase found" and leaves the
    log alone.  The same holds when the two handlers are in flight together
    and take turns at their [await]s: the log never gets more than the one
    record, and it has exactly that record once the handlers have returned. *)
Theorem exactly_one_record_per_interval
    (w0 : World) (p u : string) (info : StartInfo) (events : list Event) :
  fst (Background.handleStartPhase p u w0) = Return (Success info) ->
  let w1 := exec (Background.handleStartPhase p u) w0 in
  (existsb ends_interval events = true ->
     exists entry, logs (run p events w1) = logs w0 ++ [entry]
                   /\ log_start entry = clock w0)
  /\ (existsb ends_interval events = false -> logs (run p events w1) = logs w0)
  /\ (forall d phase' u',
        let w2 := exec (Background.handlePhaseTimeout p) (elapse d w1) in
        fst (Background.handleCompletePhase phase' u' w2)
          = Return (Error "No active phase found")
        /\ logs (exec (Background.handleCompletePhase phase' u') w2) = logs w2
        /\ length (logs w2) = S (length (logs w0)))
  /\ (forall phase' u' schedule,
        let final := raceRun p phase' u' schedule (mkRace w1 TimeoutEntered CompleteEntered) in
        (logs (race_world final) = logs w0
         \/ exists entry, logs (race_world final) = logs w0 ++ [entry])
        /\ (settled final = true ->
            exists entry, logs (race_world final) = logs w0 ++ [entry])).
Proof.
  intros Hstart w1.
  destruct (handleStartPhase_success _ _ _ _ Hstart) as [d0 [Hd [Hnz [_ Hw1]]]].
  subst w1. rewrite Hw1.
  pose (r := mkPhaseRecord u p (clock w0)).
  destruct (run_active p events r (started p u d0 w0) eq_refl eq_refl) as [Hone Hnone].
  split; [exact Hone|]. split; [exact Hnone|]. split;
    [|intros phase' u' schedule;
      exact (race_one_record p phase' u' r (started p u d0 w0) schedule eq_refl eq_refl)].
  intros d phase' u' w2.
  assert (Hw2 : currentPhaseItem w2 = None /\ length (logs w2) = S (length (logs w0))).
  { subst w2. unfold exec.
    rewrite (handlePhaseTimeout_active r) by reflexivity.
    split; [reflexivity|]. cbn. rewrite length_app. cbn. lia. }
  destruct Hw2 as [Hidle Hlen]. unfold exec.
  rewrite handleCompletePhase_idle by exact Hidle.
  split; [reflexivity|]. split; [reflexivity | exact Hlen].
Qed.

Lemma exactly_one_record_per_interval_witness :
  fst (Background.handleStartPhase "understand" (url twoSum) freshWorld)
    = Return (Success (mkStartInfo "understand" 300 0))
  /\ exists entry,
       logs (run "understand"
               [Elapse 300000; TimeoutFires; ManualComplete "understand" (url twoSum)]
               (exec (Background.handleStartPhase "understand" (url twoSum)) freshWorld))
       = logs freshWorld ++ [entry]
       /\ log_start entry = clock freshWorld.
Proof.
  split; [reflexivity|].
  apply (exactly_one_record_per_interval freshWorld "understand" (url twoSum)
           (mkStartInfo "understand" 300 0)
           [Elapse 300000; TimeoutFires; ManualComplete "understand" (url twoSum)]);
    reflexivity.
Defined.

(** ** The page, case by case *)

(** Unfolds the helpers of the page and the monad, not its entry points. *)
Ltac page_js := cbv [NewTab.currentProblem_url NewTab.updateProblemDisplay NewTab.startTimer
  NewTab.stopTimer NewTab.resetState NewTab.showError NewTab.showMessage
  NewTab.handlePhaseTimeout NewTab.onMessage
  background on_page of_page bind ret throw try_catch gets modify].

Lemma startPhase_ok (phase : string) (pb : Problem) (d : Z) (s : Sys) :
  currentProblem (page s) = Some pb -> durations (world s) !! phase = Some d -> d <> 0 ->
  NewTab.startPhase phase s
  = (Return tt, mkSys (started phase (url pb) d (world s)) (startedPage phase d (page s))).
Proof.
  intros Hpb Hd Hnz. unfold NewTab.startPhase. page_js.
  cbn [page world currentProblem set_currentPhase].
  rewrite Hpb, (handleStartPhase_ok _ _ d) by assumption. reflexivity.
Qed.

Lemma startPhase_invalid (phase : string) (pb : Problem) (s : Sys) :
  currentProblem (page s) = Some pb ->
  durations (world s) !! phase = None \/ durations (world s) !! phase = Some 0 ->
  NewTab.startPhase phase s
  = (Return tt,
     mkSys (world s)
       (alerted ("Error: " +:+ "Failed to start " +:+ phase +:+ " phase: "
                 +:+ "Invalid phase: " +:+ phase)
                (set_currentPhase phase (page s)))).
Proof.
  intros Hpb Hd. unfold NewTab.startPhase. page_js.
  cbn [page world currentProblem set_currentPhase].
  rewrite Hpb, handleStartPhase_invalid by assumption. reflexivity.
Qed.

Lemma startPhase_noProblem (phase : string) (s : Sys) :
  currentProblem (page s) = None ->
  NewTab.startPhase phase s
  = (Return tt,
     mkSys (world s)
       (alerted ("Error: " +:+ "Failed to start " +:+ phase +:+ " phase: " +:+ TypeError "url")
                (set_currentPhase phase (page s)))).
Proof.
  intros Hpb. unfold NewTab.startPhase. page_js.
  cbn [page world currentProblem set_currentPhase].
  rewrite Hpb. reflexivity.
Qed.

(** What [startPhase] never touches, however it ends. *)
Lemma startPhase_frame (phase : string) (s : Sys) :
  let s' := exec (NewTab.startPhase phase) s in
  logs (world s') = logs (world s)
  /\ currentPhase (page s') = phase
  /\ completedPhases (page s') = completedPhases (page s)
  /\ (forall name, name <> phase -> alarms (world s') !! name = alarms (world s) !! name).
Proof.
  unfold exec.
  destruct (currentProblem (page s)) as [pb|] eqn:Hpb.
  - destruct (durations (world s) !! phase) as [d|] eqn:Hd.
    + destruct (Z.eq_dec d 0) as [-> | Hnz].
      * rewrite (startPhase_invalid _ pb) by auto. cbn. auto.
      * rewrite (startPhase_ok _ pb d) by auto. cbn.
        repeat split; try reflexivity.
        intros name Hne. rewrite lookup_insert_ne by congruence.
        apply lookup_delete_ne. congruence.
    + rewrite (startPhase_invalid _ pb) by auto. cbn. auto.
  - rewrite startPhase_noProblem by assumption. cbn. auto.
Qed.

Lemma handleSkipProblem_spec (w : World) :
  Background.handleSkipProblem w = (Return (Success (nextProblemOf w)), skipped w).
Proof. reflexivity. Qed.

Lemma startPhase_returns (phase : string) (s : Sys) :
  fst (NewTab.startPhase phase s) = Return tt.
Proof.
  destruct (currentProblem (page s)) as [pb|] eqn:Hpb.
  - destruct (durations (world s) !! phase) as [d|] eqn:Hd.
    + destruct (Z.eq_dec d 0) as [-> | Hnz].
      * rewrite (startPhase_invalid _ pb) by auto. reflexivity.
      * rewrite (startPhase_ok _ pb d) by auto. reflexivity.
    + rewrite (startPhase_invalid _ pb) by auto. reflexivity.
  - rewrite startPhase_noProblem by assumption. reflexivity.
Qed.

(** A [try] whose last statement is a call of [startPhase] ends as that call. *)
Lemma try_startPhase (phase : string) (h : string -> Js Sys unit) (s : Sys) :
  try_catch (NewTab.startPhase phase) h s = NewTab.startPhase phase s.
Proof.
  unfold try_catch. pose proof (startPhase_returns phase s) as H.
  destruct (NewTab.startPhase phase s) as [[[]|m] s']; [reflexivity | discriminate].
Qed.

Lemma skipProblem_next (pb : Problem) (s : Sys) :
  nextProblemOf (world s) = Some pb ->
  NewTab.skipProblem s
  = NewTab.startPhase "understand"
      (mkSys (skipped (world s))
         (set_currentProblem (Some pb)
            (resetPage (alerted "Problem skipped. Moving to next problem..." (page s))))).
Proof.
  intros Hnext.
  rewrite <- (try_startPhase _ (fun message =>
                NewTab.showError ("Failed to skip problem: " +:+ message))).
  unfold NewTab.skipProblem. page_js. cbn [world page].
  rewrite handleSkipProblem_spec, Hnext. reflexivity.
Qed.

Lemma skipProblem_none (s : Sys) :
  nextProblemOf (world s) = None ->
  NewTab.skipProblem s
  = (Return tt,
     mkSys (skipped (world s))
       (alerted ("Error: " +:+ "Failed to skip problem: " +:+ TypeError "title")
          (set_currentProblem None
             (resetPage (alerted "Problem skipped. Moving to next problem..." (page s)))))).
Proof.
  intros Hnext. unfold NewTab.skipProblem. page_js. cbn [world page].
  rewrite handleSkipProblem_spec, Hnext. reflexivity.
Qed.

Lemma completePhase_idle (pb : Problem) (s : Sys) :
  currentPhaseItem (world s) = None -> currentProblem (page s) = Some pb ->
  NewTab.completePhase s
  = (Return tt,
     mkSys (set_alarms (delete (currentPhase (page s)) (alarms (world s))) (world s))
       (alerted ("Error: " +:+ "Failed to complete " +:+ currentPhase (page s)
                 +:+ " phase: " +:+ "No active phase found")
          (set_timerInterval false (page s)))).
Proof.
  intros Hidle Hpb.
  unfold NewTab.completePhase. page_js.
  cbn [world page currentProblem currentPhase set_timerInterval].
  rewrite Hpb, handleCompletePhase_idle by assumption. reflexivity.
Qed.

Lemma completePhase_noProblem (s : Sys) :
  currentProblem (page s) = None ->
  NewTab.completePhase s
  = (Return tt,
     mkSys (world s)
       (alerted ("Error: " +:+ "Failed to complete " +:+ currentPhase (page s)
                 +:+ " phase: " +:+ TypeError "url")
          (set_timerInterval false (page s)))).
Proof.
  intros Hpb.
  unfold NewTab.completePhase. page_js.
  cbn [world page currentProblem currentPhase set_timerInterval].
  rewrite Hpb. reflexivity.
Qed.

Lemma completePhase_active (pb : Problem) (r : PhaseRecord) (s : Sys) :
  currentPhaseItem (world s) = Some r -> currentProblem (page s) = Some pb ->
  let w' := set_logs (logs (world s)
                      ++ [completedEntry (url pb) (currentPhase (page s)) r (clock (world s))])
              (set_currentPhaseItem None
                 (set_alarms (delete (currentPhase (page s)) (alarms (world s))) (world s))) in
  NewTab.completePhase s
  = match NewTab.getNextPhase (currentPhase (page s)) with
    | Some nextPhase => NewTab.startPhase nextPhase (mkSys w' (completedPage (page s)))
    | None =>
        (Return tt,
         mkSys w' (alerted "All phases completed! You can now mark the problem as solved."
                     (completedPage (page s))))
    end.
Proof.
  intros Hr Hpb w'.
  destruct (NewTab.getNextPhase (currentPhase (page s))) as [nextPhase|] eqn:Hnext.
  - rewrite <- (try_startPhase _ (fun message =>
       bind (of_page currentPhase) (fun phase => NewTab.showError
         ("Failed to complete " +:+ phase +:+ " phase: " +:+ message)))).
    unfold NewTab.completePhase. page_js.
    cbn [world page currentProblem currentPhase set_timerInterval set_completedPhases].
    rewrite Hpb, (handleCompletePhase_active _ _ r) by assumption.
    cbn [world page currentProblem currentPhase set_timerInterval set_completedPhases].
    rewrite Hnext. reflexivity.
  - unfold NewTab.completePhase. page_js.
    cbn [world page currentProblem currentPhase set_timerInterval set_completedPhases].
    rewrite Hpb, (handleCompletePhase_active _ _ r) by assumption.
    cbn [world page currentProblem currentPhase set_timerInterval set_completedPhases].
    rewrite Hnext. reflexivity.
Qed.

Lemma alarmEvent_active (r : PhaseRecord) (s : Sys) :
  currentPhaseItem (world s) = Some r -> rec_phase r <> "quizReminderCheck" ->
  alarmEvent (rec_phase r) s
  = (Return tt,
     mkSys (set_logs (logs (world s)
                      ++ [completedEntry (rec_problemUrl r) (rec_phase r) r (clock (world s))])
              (set_currentPhaseItem None
                 (set_notifications (notifications (world s) ++ [rec_phase r]) (world s))))
       (alerted ("Time's up for the " +:+ currentPhase (page s)
                 +:+ " phase! You can continue or move to the next phase.") (page s))).
Proof.
  intros Hr Hquiz.
  unfold alarmEvent, Background.onAlarm. page_js.
  rewrite bool_decide_eq_false_2 by assumption.
  rewrite (handlePhaseTimeout_active r) by assumption. reflexivity.
Qed.


Lemma intervalCallback_frame (s : Sys) :
  let s' := exec NewTab.intervalCallback s in
  world s' = world s
  /\ currentPhase (page s') = currentPhase (page s)
  /\ completedPhases (page s') = completedPhases (page s).
Proof.
  unfold exec, NewTab.intervalCallback. page_js. cbn [snd].
  cbn [page world timerInterval remainingTime set_remainingTime].
  destruct (timerInterval (page s)); [|auto].
  case_bool_decide; cbn; auto.
Qed.

(** C2. When the alarm of the running phase reaches the background script
    (its name is a phase, not the quiz reminder's), the record of that phase
    is appended to the log and the stored record is cleared, while the page
    keeps its current phase and its completed phases: it only displays a
    message.  No alarm is created and no interval is started.  The page's
    own countdown reaching zero changes neither the world nor the sequence.
    A manual [completePhase], in contrast, adds the current phase to the
    completed ones and moves to the next phase when there is one. *)
Theorem timeout_keeps_sequence_state (s : Sys) (r : PhaseRecord) :
  currentPhaseItem (world s) = Some r -> rec_phase r <> "quizReminderCheck" ->
  let s' := exec (alarmEvent (rec_phase r)) s in
  logs (world s')
    = logs (world s) ++ [completedEntry (rec_problemUrl r) (rec_phase r) r (clock (world s))]
  /\ currentPhase (page s') = currentPhase (page s)
  /\ completedPhases (page s') = completedPhases (page s)
  /\ currentPhaseItem (world s') = None
  /\ alarms (world s') = alarms (world s)
  /\ (let s'' := exec NewTab.intervalCallback s in
      world s'' = world s
      /\ currentPhase (page s'') = currentPhase (page s)
      /\ completedPhases (page s'') = completedPhases (page s))
  /\ (forall pb, currentProblem (page s) = Some pb ->
      let s3 := exec NewTab.completePhase s in
      completedPhases (page s3) = completedPhases (page s) ++ [currentPhase (page s)]
      /\ currentPhase (page s3)
         = default (currentPhase (page s)) (NewTab.getNextPhase (currentPhase (page s)))).
Proof.
  intros Hr Hquiz s'. subst s'. unfold exec at 1 2 3 4 5.
  rewrite (alarmEvent_active r) by assumption. cbn [snd world page logs set_logs
    currentPhaseItem set_currentPhaseItem set_notifications alarms alerted set_alerts
    currentPhase completedPhases].
  repeat (split; [reflexivity|]).
  split; [apply intervalCallback_frame|].
  intros pb Hpb. unfold exec.
  rewrite (completePhase_active pb r) by assumption.
  destruct (NewTab.getNextPhase (currentPhase (page s))) as [nextPhase|].
  - match goal with |- context [NewTab.startPhase ?p ?x] =>
      destruct (startPhase_frame p x) as [_ [Hc [Hd _]]] end.
    unfold exec in Hc, Hd. rewrite Hc, Hd. split; reflexivity.
  - split; reflexivity.
Qed.

(** C6. With no stored record, [COMPLETE_PHASE] is answered by the error
    "No active phase found" and writes no log entry; [completePhase] on the
    page then reports an error naming the operation, appends no record and
    leaves the current phase and the completed phases as they were. *)
Theorem completePhase_without_active_phase (s : Sys) :
  currentPhaseItem (world s) = None ->
  let s' := exec NewTab.completePhase s in
  (forall phase problemUrl,
     fst (Background.handleCompletePhase phase problemUrl (world s))
       = Return (Error "No active phase found")
     /\ logs (exec (Background.handleCompletePhase phase problemUrl) (world s))
        = logs (world s))
  /\ logs (world s') = logs (world s)
  /\ currentPhaseItem (world s') = None
  /\ currentPhase (page s') = currentPhase (page s)
  /\ completedPhases (page s') = completedPhases (page s)
  /\ (exists message,
        alerts (page s')
        = alerts (page s) ++ ["Error: " +:+ "Failed to complete " +:+ currentPhase (page s)
                              +:+ " phase: " +:+ message]
        /\ (currentProblem (page s) <> None -> message = "No active phase found")).
Proof.
  intros Hidle s'. split.
  { intros phase problemUrl. unfold exec.
    rewrite handleCompletePhase_idle by assumption. split; reflexivity. }
  subst s'. unfold exec. destruct (currentProblem (page s)) as [pb|] eqn:Hpb.
  - rewrite (completePhase_idle pb) by assumption. cbn.
    repeat (split; [first [reflexivity | assumption]|]).
    eexists. split; [reflexivity | intros _; reflexivity].
  - rewrite completePhase_noProblem by assumption. cbn.
    repeat (split; [first [reflexivity | assumption]|]).
    eexists. split; [reflexivity | intros H; contradiction].
Qed.

(** C7. [skipProblem], whether or not an interval is running, appends nothing
    to the log and leaves the page at phase "understand" with no completed
    phase; when there is a next problem and "understand" has a duration, the
    stored record is the one of the new problem. *)
Theorem skipProblem_logs_nothing_and_resets (s : Sys) :
  let s' := exec NewTab.skipProblem s in
  logs (world s') = logs (world s)
  /\ currentPhase (page s') = "understand"
  /\ completedPhases (page s') = []
  /\ (forall pb d,
        nextProblemOf (world s) = Some pb ->
        durations (world s) !! "understand" = Some d -> d <> 0 ->
        currentProblem (page s') = Some pb
        /\ currentPhaseItem (world s')
           = Some (mkPhaseRecord (url pb) "understand" (clock (world s)))).
Proof.
  intros s'. subst s'. unfold exec.
  destruct (nextProblemOf (world s)) as [pb|] eqn:Hnext.
  - rewrite (skipProblem_next pb) by assumption.
    match goal with |- context [NewTab.startPhase ?p ?x] =>
      destruct (startPhase_frame p x) as [Hl [Hc [Hd _]]]; unfold exec in Hl, Hc, Hd end.
    rewrite Hl, Hc, Hd. repeat (split; [reflexivity|]).
    intros pb' d Hpb' Hd' Hnz. injection Hpb' as <-.
    rewrite (startPhase_ok _ pb d) by (try assumption; reflexivity).
    split; reflexivity.
  - rewrite skipProblem_none by assumption. cbn.
    repeat (split; [reflexivity|]). intros pb d Hpb. discriminate.
Qed.

Lemma timeout_keeps_sequence_state_witness :
  currentPhaseItem (world understanding) = Some (mkPhaseRecord (url twoSum) "understand" 0)
  /\ currentPhase (page (exec (alarmEvent "understand") understanding))
     = currentPhase (page understanding).
Proof.
  split; [reflexivity|].
  refine (proj1 (proj2 (timeout_keeps_sequence_state understanding
                          (mkPhaseRecord (url twoSum) "understand" 0) _ _))).
  - reflexivity.
  - discriminate.
Defined.

Lemma completePhase_without_active_phase_witness :
  currentPhaseItem (world freshSys) = None
  /\ logs (world (exec NewTab.completePhase freshSys)) = logs (world freshSys).
Proof.
  split; [reflexivity|].
  refine (proj1 (proj2 (completePhase_without_active_phase freshSys _))).
  reflexivity.
Defined.

Lemma skipProblem_logs_nothing_and_resets_witness :
  currentPhaseItem (world implementing)
    = Some (mkPhaseRecord (url twoSum) "implement" 360000)
  /\ nextProblemOf (world implementing) = Some addTwoNumbers
  /\ durations (world implementing) !! "understand" = Some 300
  /\ currentPhaseItem (world (exec NewTab.skipProblem implementing))
     = Some (mkPhaseRecord (url addTwoNumbers) "understand" (clock (world implementing))).
Proof.
  split; [reflexivity|]. split; [reflexivity|]. split; [reflexivity|].
  refine (proj2 (proj2 (proj2 (proj2 (skipProblem_logs_nothing_and_resets implementing)))
                   addTwoNumbers 300 _ _ _)).
  - reflexivity.
  - reflexivity.
  - discriminate.
Defined.

(** ** The record of a timeout, the remaining time, starting and skipping *)

Lemma fireAlarm_due (r : PhaseRecord) (scheduledTime : Z) (w : World) :
  currentPhaseItem w = Some r -> alarms w !! rec_phase r = Some scheduledTime ->
  scheduledTime <= clock w -> rec_phase r <> "quizReminderCheck" ->
  logs (exec (Background.fireAlarm (rec_phase r)) w)
  = logs w ++ [completedEntry (rec_problemUrl r) (rec_phase r) r (clock w)].
Proof.
  intros Hr Ha Hdue Hquiz.
  cbv [Background.fireAlarm Alarms.find Background.onAlarm bind ret gets modify exec snd].
  rewrite Ha. rewrite bool_decide_eq_true_2 by assumption.
  rewrite bool_decide_eq_false_2 by assumption.
  rewrite (handlePhaseTimeout_active r) by exact Hr. reflexivity.
Qed.

Lemma started_alarm (phase problemUrl : string) (d : Z) (w : World) :
  alarms (started phase problemUrl d w) !! phase = Some (clock w + d * 1000).
Proof. cbn. apply lookup_insert_eq. Qed.

(** What a start leaves as it was, and what it sets, for every duration. *)
Lemma started_fields (phase problemUrl : string) (d : Z) (w : World) :
  let w' := started phase problemUrl d w in
  currentPhaseItem w' = Some (mkPhaseRecord problemUrl phase (clock w))
  /\ is_Some (alarms w' !! phase)
  /\ (forall name, name <> phase -> alarms w' !! name = alarms w !! name)
  /\ logs w' = logs w.
Proof.
  cbn. split; [reflexivity|]. split; [|split; [|reflexivity]].
  - rewrite lookup_insert_eq. eexists. reflexivity.
  - intros name Hne. rewrite lookup_insert_ne by congruence.
    apply lookup_delete_ne. congruence.
Qed.

(** C3, as the code has it.  The record written when the timeout of a started
    interval is handled [e] milliseconds after the start ends at the instant
    the handler runs, [start + e], and its duration is [e / 1000] seconds;
    this also holds when the alarm service delivers the alarm once it is due.
    The record ends at [start + durationSec] exactly when the handler runs at
    that very instant. *)
Theorem timeout_record_ends_when_handled
    (w0 : World) (p u : string) (info : StartInfo) (e : Z) :
  fst (Background.handleStartPhase p u w0) = Return (Success info) ->
  let w1 := exec (Background.handleStartPhase p u) w0 in
  let entry := mkLogEntry (clock w0 + e) u p (Qmake e 1000) (clock w0) (clock w0 + e) in
  logs (exec (Background.handlePhaseTimeout p) (elapse e w1)) = logs w0 ++ [entry]
  /\ (start_durationSec info * 1000 <= e -> p <> "quizReminderCheck" ->
      logs (exec (Background.fireAlarm p) (elapse e w1)) = logs w0 ++ [entry])
  /\ (log_end entry = log_start entry + start_durationSec info * 1000
      <-> e = start_durationSec info * 1000)
  /\ (Qeq (log_duration entry) (inject_Z (start_durationSec info))
      <-> e = start_durationSec info * 1000).
Proof.
  intros Hstart w1 entry.
  destruct (handleStartPhase_success _ _ _ _ Hstart) as [d [Hd [Hnz [-> Hw1]]]].
  subst w1. rewrite Hw1. cbn [start_durationSec].
  pose (r := mkPhaseRecord u p (clock w0)).
  assert (Hentry : completedEntry u p r (clock w0 + e) = entry).
  { unfold completedEntry, entry. cbn [rec_startTime r]. f_equal. f_equal. lia. }
  split; [|split; [|split]].
  - unfold exec.
    rewrite (handlePhaseTimeout_active r) by reflexivity. cbn [snd logs set_logs].
    rewrite <- Hentry. reflexivity.
  - intros Hdue Hquiz.
    rewrite (fireAlarm_due r (clock w0 + d * 1000)).
    + rewrite <- Hentry. reflexivity.
    + reflexivity.
    + apply started_alarm.
    + cbn. lia.
    + exact Hquiz.
  - cbn. lia.
  - unfold Qeq. cbn. lia.
Qed.

Lemma timeout_record_ends_when_handled_witness :
  fst (Background.handleStartPhase "understand" (url twoSum) freshWorld)
    = Return (Success (mkStartInfo "understand" 300 0))
  /\ logs (exec (Background.handlePhaseTimeout "understand")
             (elapse 300250 (exec (Background.handleStartPhase "understand" (url twoSum))
                               freshWorld)))
     = logs freshWorld
       ++ [mkLogEntry (clock freshWorld + 300250) (url twoSum) "understand"
             (Qmake 300250 1000) (clock freshWorld) (clock freshWorld + 300250)].
Proof.
  split; [reflexivity|].
  refine (proj1 (timeout_record_ends_when_handled freshWorld "understand" (url twoSum)
                   (mkStartInfo "understand" 300 0) 300250 _)).
  reflexivity.
Defined.

(** C3, as stated, fails: the alarm of a 300 second interval delivered 301
    seconds after the start leaves a record that ends at 301000, not at
    300000, with a duration of 301 seconds. *)
Lemma timeout_record_ends_late :
  let w1 := exec (Background.handleStartPhase "understand" (url twoSum)) freshWorld in
  let w2 := exec (Background.fireAlarm "understand") (elapse 301000 w1) in
  fst (Background.handleStartPhase "understand" (url twoSum) freshWorld)
    = Return (Success (mkStartInfo "understand" 300 0))
  /\ exists entry,
       logs w2 = [entry]
       /\ log_start entry = 0
       /\ log_end entry = 301000
       /\ log_end entry <> log_start entry + 300 * 1000
       /\ ~ Qeq (log_duration entry) (inject_Z 300).
Proof.
  split; [reflexivity|]. eexists. split; [reflexivity|].
  split; [reflexivity|]. split; [reflexivity|]. split; [discriminate | intros H; discriminate H].
Qed.







(** C9, as the code has it.  [handleStartPhase] fails, leaving the world
    unchanged, for a zero duration and for a missing one when the phase is not
    the name of a property every object inherits; every other configured
    duration, negative ones included, starts the interval.  [startPhaseTimer]
    itself accepts whatever duration it is given.  The alarm is [d * 1000]
    milliseconds ahead when [d] is a whole number of minutes. *)
Theorem start_rejects_missing_or_zero_duration_only (w : World) (phase u : string) :
  let w' := exec (Background.handleStartPhase phase u) w in
  ((durations w !! phase = None /\ inheritedName phase = false)
   \/ durations w !! phase = Some 0 ->
     fst (Background.handleStartPhase phase u w) = Return (Error ("Invalid phase: " +:+ phase))
     /\ w' = w)
  /\ (forall d, durations w !! phase = Some d -> d <> 0 ->
     fst (Background.handleStartPhase phase u w)
       = Return (Success (mkStartInfo phase d (clock w)))
     /\ is_Some (alarms w' !! phase)
     /\ (wholeMinutes d = true -> alarms w' !! phase = Some (clock w + d * 1000))
     /\ currentPhaseItem w' = Some (mkPhaseRecord u phase (clock w)))
  /\ (forall d,
     is_Some (alarms (exec (Timer.startPhaseTimer phase d) w) !! phase)
     /\ (wholeMinutes d = true ->
         alarms (exec (Timer.startPhaseTimer phase d) w) !! phase
         = Some (clock w + d * 1000))).
Proof.
  intros w'. subst w'. unfold exec. split; [|split].
  - intros Hd.
    assert (Hd' : durations w !! phase = None \/ durations w !! phase = Some 0) by tauto.
    rewrite handleStartPhase_invalid by assumption. split; reflexivity.
  - intros d Hd Hnz. rewrite (handleStartPhase_ok _ _ d) by assumption.
    split; [reflexivity|]. cbn [snd].
    destruct (started_fields phase u d w) as (Hitem & Halarm & _).
    split; [exact Halarm|]. split; [intros _; apply started_alarm | exact Hitem].
  - intros d.
    assert (Halarm : alarms (snd (Timer.startPhaseTimer phase d w)) !! phase
                     = Some (clock w + d * 1000)).
    { cbv [Timer.startPhaseTimer Alarms.clear Alarms.create bind ret gets modify snd].
      cbn [alarms set_alarms clock]. rewrite delay_ms_seconds. apply lookup_insert_eq. }
    split; [rewrite Halarm; eexists; reflexivity | intros _; exact Halarm].
Qed.

Lemma start_rejects_missing_or_zero_duration_only_witness :
  durations freshWorld !! "review" = None
  /\ fst (Background.handleStartPhase "review" (url twoSum) freshWorld)
     = Return (Error "Invalid phase: review").
Proof.
  split; [reflexivity|].
  refine (proj1 (proj1 (start_rejects_missing_or_zero_duration_only
                          freshWorld "review" (url twoSum)) _)).
  left. split; reflexivity.
Defined.

(** C9, as stated, fails: a configured duration of -5 seconds starts an
    interval. *)
Lemma negative_duration_starts :
  let w' := exec (Background.handleStartPhase "understand" (url twoSum)) negativeConfigWorld in
  durations negativeConfigWorld !! "understand" = Some (-5)
  /\ fst (Background.handleStartPhase "understand" (url twoSum) negativeConfigWorld)
     = Return (Success (mkStartInfo "understand" (-5) 0))
  /\ currentPhaseItem w' = Some (mkPhaseRecord (url twoSum) "understand" 0)
  /\ alarms w' !! "understand" = Some (-5000).
Proof. repeat split; reflexivity. Qed.



Lemma handleMarkSolved_spec (problemUrl : string) (w : World) :
  Background.handleMarkSolved problemUrl w
  = (Return (Success (nextProblemOf w)), solved problemUrl w).
Proof. reflexivity. Qed.





(** ** The weekly report *)

Lemma totalDuration_sum (records : list LogEntry) :
  Logger.totalDuration records = sumOfDurations records.
Proof.
  unfold Logger.totalDuration, sumOfDurations. generalize (inject_Z 0).
  induction records as [|r records IH]; intros q; [reflexivity|]. cbn. apply IH.
Qed.

Lemma getProperty_own {A} (o : gmap string A) (key : string) (value : A) :
  o !! key = Some value -> getProperty o key = Own value.
Proof. unfold getProperty. intros ->. reflexivity. Qed.

Lemma getProperty_missing {A} (o : gmap string A) (key : string) :
  o !! key = None -> inheritedName key = false -> getProperty o key = Missing.
Proof. unfold getProperty. intros -> ->. reflexivity. Qed.

Lemma getProperty_inherited {A} (o : gmap string A) (key : string) :
  o !! key = None -> inheritedName key = true -> getProperty o key = Inherited.
Proof. unfold getProperty. intros -> ->. reflexivity. Qed.

(** The body of the loop, for an entry without inherited names: the entry
    joins the list of its problem and phase, and no other list changes. *)
Lemma addLog_pushes {S} (problemMap : gmap string ProblemEntry) (log : LogEntry) (s : S) :
  cleanMap problemMap -> inheritedNames log = false ->
  exists problemMap',
    Logger.addLog problemMap log s = (Return problemMap', s)
    /\ cleanMap problemMap'
    /\ forall problemUrl phase,
         bucket problemMap' problemUrl phase
         = if decide (log_problemUrl log = problemUrl /\ log_phase log = phase)
           then Some (default [] (bucket problemMap problemUrl phase) ++ [log])
           else bucket problemMap problemUrl phase.
Proof.
  intros Hclean Hnames. apply orb_false_elim in Hnames as [Hurl Hphase].
  unfold Logger.addLog.
  set (created := match getProperty problemMap (log_problemUrl log) with
                  | Missing => <[log_problemUrl log :=
                                   mkProblemEntry (log_problemUrl log) ∅ None]> problemMap
                  | _ => problemMap
                  end).
  assert (Hcreated : exists entry,
            created !! log_problemUrl log = Some entry
            /\ (forall phase logs, entry_phases entry !! phase = Some logs ->
                  inheritedName phase = false)
            /\ entry_phases entry
               = default ∅ (entry_phases <$> problemMap !! log_problemUrl log)
            /\ forall problemUrl, problemUrl <> log_problemUrl log ->
                 created !! problemUrl = problemMap !! problemUrl).
  { subst created. destruct (problemMap !! log_problemUrl log) as [entry|] eqn:Hentry.
    - rewrite (getProperty_own _ _ entry) by exact Hentry. exists entry.
      split; [exact Hentry|]. split; [apply (Hclean _ _ Hentry)|]. split; [reflexivity|].
      reflexivity.
    - rewrite getProperty_missing by assumption. eexists.
      split; [apply lookup_insert_eq|]. split; [|split; [reflexivity|]].
      + intros phase logs H. cbn in H. rewrite lookup_empty in H. discriminate.
      + intros problemUrl Hne. apply lookup_insert_ne. congruence. }
  destruct Hcreated as (entry & Hentry & Hphases & Hold & Hother).
  rewrite (getProperty_own _ _ entry) by exact Hentry.
  set (phases := match getProperty (entry_phases entry) (log_phase log) with
                 | Missing => <[log_phase log := []]> (entry_phases entry)
                 | _ => entry_phases entry
                 end).
  assert (Hlist : exists logs,
            phases !! log_phase log = Some logs
            /\ logs = default [] (entry_phases entry !! log_phase log)
            /\ forall phase, phase <> log_phase log ->
                 phases !! phase = entry_phases entry !! phase).
  { subst phases. destruct (entry_phases entry !! log_phase log) as [logs|] eqn:Hlogs.
    - rewrite (getProperty_own _ _ logs) by exact Hlogs. exists logs.
      split; [exact Hlogs|]. split; reflexivity.
    - rewrite getProperty_missing by assumption. exists [].
      split; [apply lookup_insert_eq|]. split; [reflexivity|].
      intros phase Hne. apply lookup_insert_ne. congruence. }
  destruct Hlist as (logs & Hlogs & Hdefault & Hrest).
  rewrite (getProperty_own _ _ logs) by exact Hlogs.
  eexists. split; [reflexivity|]. split.
  - intros problemUrl entry' Hlookup.
    destruct (decide (problemUrl = log_problemUrl log)) as [-> | Hne].
    + rewrite lookup_insert_eq in Hlookup. injection Hlookup as <-.
      split; [exact Hurl|]. cbn [entry_phases]. intros phase logs' Hphase'.
      destruct (decide (phase = log_phase log)) as [-> | Hne']; [exact Hphase|].
      rewrite lookup_insert_ne in Hphase' by congruence.
      rewrite Hrest in Hphase' by exact Hne'. exact (Hphases _ _ Hphase').
    + rewrite lookup_insert_ne in Hlookup by congruence.
      rewrite Hother in Hlookup by exact Hne. exact (Hclean _ _ Hlookup).
  - intros problemUrl phase. unfold bucket.
    destruct (decide (log_problemUrl log = problemUrl)) as [<- | Hne].
    + rewrite lookup_insert_eq. cbn [mbind option_bind entry_phases].
      destruct (decide (log_phase log = phase)) as [<- | Hne'].
      * rewrite decide_True by auto. rewrite lookup_insert_eq. f_equal. f_equal.
        rewrite Hdefault, Hold.
        destruct (problemMap !! log_problemUrl log) as [old|]; cbn; [reflexivity|].
        rewrite lookup_empty. reflexivity.
      * rewrite decide_False by tauto. rewrite lookup_insert_ne by exact Hne'.
        rewrite Hrest by congruence. rewrite Hold.
        destruct (problemMap !! log_problemUrl log) as [old|]; cbn; [reflexivity|].
        apply lookup_empty.
    + rewrite decide_False by tauto. rewrite lookup_insert_ne by exact Hne.
      rewrite Hother by congruence. reflexivity.
Qed.

(** The body of the loop, for an entry with an inherited name. *)
Lemma addLog_throws {S} (problemMap : gmap string ProblemEntry) (log : LogEntry) (s : S) :
  cleanMap problemMap -> inheritedNames log = true ->
  exists message, Logger.addLog problemMap log s = (Throw message, s).
Proof.
  intros Hclean Hnames. unfold Logger.addLog.
  destruct (inheritedName (log_problemUrl log)) eqn:Hurl.
  - assert (Hnone : problemMap !! log_problemUrl log = None).
    { destruct (problemMap !! log_problemUrl log) as [entry|] eqn:Hentry; [|reflexivity].
      destruct (Hclean _ _ Hentry) as [H _]. congruence. }
    rewrite (getProperty_inherited problemMap) by assumption. cbv iota.
    rewrite (getProperty_inherited problemMap) by assumption. eexists. reflexivity.
  - unfold inheritedNames in Hnames. rewrite Hurl in Hnames. cbn [orb] in Hnames.
    destruct (problemMap !! log_problemUrl log) as [entry|] eqn:Hentry.
    + rewrite (getProperty_own problemMap _ entry) by exact Hentry. cbv iota.
      rewrite (getProperty_own problemMap _ entry) by exact Hentry.
      assert (Hnone : entry_phases entry !! log_phase log = None).
      { destruct (entry_phases entry !! log_phase log) as [logs|] eqn:Hlogs; [|reflexivity].
        destruct (Hclean _ _ Hentry) as [_ H]. specialize (H _ _ Hlogs). congruence. }
      rewrite (getProperty_inherited (entry_phases entry)) by assumption. cbv iota.
      rewrite (getProperty_inherited (entry_phases entry)) by assumption.
      eexists. reflexivity.
    + rewrite (getProperty_missing problemMap) by assumption. cbv iota.
      rewrite (getProperty_own _ _ (mkProblemEntry (log_problemUrl log) ∅ None))
        by apply lookup_insert_eq.
      cbn [entry_phases].
      rewrite (getProperty_inherited (A := list LogEntry) ∅)
        by (try apply lookup_empty; assumption).
      cbv iota.
      rewrite (getProperty_inherited (A := list LogEntry) ∅)
        by (try apply lookup_empty; assumption).
      eexists. reflexivity.
Qed.

Lemma cleanMap_empty : cleanMap ∅.
Proof. intros problemUrl entry H. rewrite lookup_empty in H. discriminate. Qed.

(** The loop over the logs. *)
Lemma forEachLog_spec {S} (logs : list LogEntry) (problemMap : gmap string ProblemEntry)
    (s : S) :
  cleanMap problemMap ->
  if existsb inheritedNames logs
  then exists message, Logger.forEachLog logs problemMap s = (Throw message, s)
  else exists problemMap',
         Logger.forEachLog logs problemMap s = (Return problemMap', s)
         /\ forall problemUrl phase,
              bucket problemMap' problemUrl phase
              = match recordsOf problemUrl phase logs with
                | [] => bucket problemMap problemUrl phase
                | records => Some (default [] (bucket problemMap problemUrl phase) ++ records)
                end.
Proof.
  revert problemMap. induction logs as [|log logs IH]; intros problemMap Hclean.
  - cbn. exists problemMap. split; reflexivity.
  - cbn [existsb Logger.forEachLog]. unfold bind.
    destruct (inheritedNames log) eqn:Hnames; cbn [orb].
    + destruct (addLog_throws problemMap log s Hclean Hnames) as [message ->].
      exists message. reflexivity.
    + destruct (addLog_pushes problemMap log s Hclean Hnames)
        as (pushed & -> & Hclean' & Hbucket).
      specialize (IH pushed Hclean').
      destruct (existsb inheritedNames logs); [exact IH|].
      destruct IH as (problemMap' & -> & Hall). exists problemMap'.
      split; [reflexivity|]. intros problemUrl phase.
      rewrite Hall, Hbucket. unfold recordsOf. rewrite filter_cons.
      fold (recordsOf problemUrl phase logs).
      destruct (decide (log_problemUrl log = problemUrl /\ log_phase log = phase)) as [Hm | Hm].
      * cbn [default]. destruct (recordsOf problemUrl phase logs) as [|r rs].
        -- reflexivity.
        -- unfold id. rewrite <- app_assoc. reflexivity.
      * reflexivity.
Qed.

Lemma bucket_addSolution (problemMap : gmap string ProblemEntry) (solution : Solution)
    (problemUrl phase : string) :
  bucket (Logger.addSolution problemMap solution) problemUrl phase
  = bucket problemMap problemUrl phase.
Proof.
  unfold bucket, Logger.addSolution, getProperty.
  destruct (problemMap !! sol_problemUrl solution) as [entry|] eqn:Hentry.
  - destruct (decide (sol_problemUrl solution = problemUrl)) as [<- | Hne].
    + rewrite lookup_insert_eq, Hentry. reflexivity.
    + rewrite lookup_insert_ne by exact Hne. reflexivity.
  - destruct (inheritedName (sol_problemUrl solution)); [reflexivity|].
    destruct (decide (sol_problemUrl solution = problemUrl)) as [<- | Hne].
    + rewrite lookup_insert_eq, Hentry. cbn. apply lookup_empty.
    + rewrite lookup_insert_ne by exact Hne. reflexivity.
Qed.

Lemma bucket_solutions (solutions : list Solution) (problemMap : gmap string ProblemEntry)
    (problemUrl phase : string) :
  bucket (fold_left Logger.addSolution solutions problemMap) problemUrl phase
  = bucket problemMap problemUrl phase.
Proof.
  revert problemMap. induction solutions as [|solution solutions IH]; intros problemMap;
    [reflexivity|].
  cbn [fold_left]. rewrite IH. apply bucket_addSolution.
Qed.

Lemma reportedTotal_bucket (toLocaleDateString : Z -> string)
    (problemMap : gmap string ProblemEntry) (problemUrl phase : string) :
  reportedTotal (Logger.reportOf toLocaleDateString <$> problemMap) problemUrl phase
  = sumOfDurations <$> bucket problemMap problemUrl phase.
Proof.
  unfold reportedTotal, bucket. rewrite lookup_fmap.
  destruct (problemMap !! problemUrl) as [entry|]; [|reflexivity].
  cbn. rewrite lookup_fmap.
  destruct (entry_phases entry !! phase) as [records|]; [|reflexivity].
  cbn. f_equal. apply totalDuration_sum.
Qed.

(** The loop over the logs does not look at the state. *)
Lemma addLog_state {S} (problemMap : gmap string ProblemEntry) (log : LogEntry) (s : S) :
  Logger.addLog problemMap log s = (fst (Logger.addLog problemMap log tt), s).
Proof.
  unfold Logger.addLog.
  destruct (getProperty _ (log_problemUrl log)) as [entry| |]; try reflexivity.
  destruct (getProperty _ (log_phase log)) as [logs| |]; reflexivity.
Qed.

Lemma forEachLog_state {S} (logs : list LogEntry) (problemMap : gmap string ProblemEntry)
    (s : S) :
  Logger.forEachLog logs problemMap s = (fst (Logger.forEachLog logs problemMap tt), s).
Proof.
  revert problemMap. induction logs as [|log logs IH]; intros problemMap; [reflexivity|].
  cbn [Logger.forEachLog]. unfold bind.
  rewrite (addLog_state problemMap log s), (addLog_state problemMap log tt).
  cbn [fst]. destruct (fst (Logger.addLog problemMap log tt)) as [pushed|message].
  - cbv beta iota. apply IH.
  - reflexivity.
Qed.

(** The report, from the logs, the solutions and the clock. *)
Lemma generateWeeklyReport_spec (toLocaleDateString : Z -> string) (w : World) :
  Logger.generateWeeklyReport toLocaleDateString w
  = (match fst (Logger.forEachLog (logs w) ∅ tt) with
     | Return problemMap =>
         Return (mkReport (toLocaleDateString (clock w))
                   (Logger.reportOf toLocaleDateString
                      <$> fold_left Logger.addSolution (solutions w) problemMap))
     | Throw message => Throw message
     end, w).
Proof.
  cbv [Logger.generateWeeklyReport Storage.getLogs Storage.getSolutions bind gets ret].
  rewrite (forEachLog_state (logs w) ∅ w).
  destruct (fst (Logger.forEachLog (logs w) ∅ tt)); reflexivity.
Qed.

(** The total of a problem and a phase in the report of a log without
    inherited names. *)
Lemma generateWeeklyReport_totals (toLocaleDateString : Z -> string) (w : World) :
  existsb inheritedNames (logs w) = false ->
  exists r,
    fst (Logger.generateWeeklyReport toLocaleDateString w) = Return r
    /\ forall problemUrl phase,
         reportedTotal (report_problems r) problemUrl phase
         = match recordsOf problemUrl phase (logs w) with
           | [] => None
           | records => Some (sumOfDurations records)
           end.
Proof.
  intros Hclean. rewrite generateWeeklyReport_spec. cbn [fst].
  pose proof (forEachLog_spec (logs w) ∅ tt cleanMap_empty) as Hloop.
  rewrite Hclean in Hloop. destruct Hloop as (problemMap & -> & Hbucket). cbn [fst].
  eexists. split; [reflexivity|]. intros problemUrl phase. cbn [report_problems].
  rewrite reportedTotal_bucket, bucket_solutions, Hbucket.
  unfold bucket. rewrite lookup_empty. cbn.
  destruct (recordsOf problemUrl phase (logs w)); reflexivity.
Qed.


Lemma generateWeeklyReport_throws (toLocaleDateString : Z -> string) (w : World) :
  existsb inheritedNames (logs w) = true ->
  exists message, fst (Logger.generateWeeklyReport toLocaleDateString w) = Throw message.
Proof.
  intros Hnames. rewrite generateWeeklyReport_spec. cbn [fst].
  pose proof (forEachLog_spec (logs w) ∅ tt cleanMap_empty) as Hloop.
  rewrite Hnames in Hloop. destruct Hloop as [message ->]. exists message. reflexivity.
Qed.




Example report_sums_two_intervals :
  let w := exec (Background.handleCompletePhase "understand" (url twoSum))
             (elapse 200000
                (exec (Background.handleStartPhase "understand" (url twoSum))
                   (exec (Background.handlePhaseTimeout "understand")
                      (elapse 300000 (world understanding))))) in
  length (logs w) = 2%nat
  /\ exists r,
       fst (Logger.generateWeeklyReport utcDay w) = Return r
       /\ reportedTotal (report_problems r) (url twoSum) "understand"
          = Some (Qplus (Qplus (inject_Z 0) (Qmake 300000 1000)) (Qmake 200000 1000)).
Proof.
  intros w. split; [reflexivity|].
  destruct (generateWeeklyReport_totals utcDay w) as (r & Hr & Htotal);
    [vm_compute; reflexivity|].
  exists r. split; [exact Hr|]. rewrite Htotal. reflexivity.
Qed.

(** ** The quiz *)

Lemma forEachQuestion_spec (answers : gmap string string) (questions : list Question)
    (index score : nat) (results : list QuestionResult) :
  Quiz.forEachQuestion answers index questions (score, results)
  = ((score + correctCount (imap (fun k => resultOf answers (index + k)) questions))%nat,
     results ++ imap (fun k => resultOf answers (index + k)) questions).
Proof.
  revert index score results.
  induction questions as [|question questions IH]; intros index score results.
  - cbn. rewrite Nat.add_0_r, app_nil_r. reflexivity.
  - cbn [Quiz.forEachQuestion Quiz.gradeQuestion]. rewrite IH.
    cbn [imap]. rewrite Nat.add_0_r. fold (answerKey index).
    assert (Himap : imap (fun k => resultOf answers (S index + k)) questions
                    = imap ((fun k => resultOf answers (index + k)) ∘ S) questions).
    { apply imap_ext. intros k q _. cbn. f_equal. lia. }
    rewrite Himap. unfold correctCount at 2. rewrite filter_cons. cbn [isCorrect resultOf].
    f_equal.
    + fold (resultOf answers index question).
      destruct (bool_decide (answers !! answerKey index = Some (correctAnswer question))) eqn:E.
      * rewrite decide_True by reflexivity. cbn [length]. unfold correctCount. lia.
      * rewrite decide_False by discriminate. unfold correctCount. lia.
    + rewrite <- app_assoc. reflexivity.
Qed.

(** X1. [gradeQuiz] gives one result per question, in the order of the
    questions: the result at [index] carries the answer stored under the key
    [q<index>] and is correct exactly when that answer is the question's
    [correctAnswer].  The score is the number of correct results, so it never
    exceeds the total, which is the number of questions.  A question without
    an answer counts as wrong.  The percentage is NaN exactly for a quiz
    without questions. *)
Theorem gradeQuiz_counts_matching_answers (quiz : Quiz) (answers : gmap string string) :
  let graded := Quiz.gradeQuiz quiz answers in
  total graded = length (questions quiz)
  /\ length (results graded) = total graded
  /\ score graded = correctCount (results graded)
  /\ (score graded <= total graded)%nat
  /\ (forall index question,
        questions quiz !! index = Some question ->
        results graded !! index = Some (resultOf answers index question))
  /\ (forall index question,
        questions quiz !! index = Some question ->
        answers !! answerKey index = None ->
        isCorrect <$> results graded !! index = Some false)
  /\ (percentage graded = None <-> questions quiz = []).
Proof.
  intros graded. subst graded. unfold Quiz.gradeQuiz.
  rewrite forEachQuestion_spec. cbn [app Nat.add total results score percentage].
  set (rs := imap (fun k => resultOf answers k) (questions quiz)).
  assert (Hlen : length rs = length (questions quiz)) by apply length_imap.
  assert (Hlookup : forall index question,
            questions quiz !! index = Some question ->
            rs !! index = Some (resultOf answers index question)).
  { intros index question Hq. unfold rs. rewrite list_lookup_imap, Hq. reflexivity. }
  split; [reflexivity|]. split; [exact Hlen|]. split; [reflexivity|].
  split.
  { unfold correctCount. rewrite <- Hlen. apply length_filter. }
  split; [exact Hlookup|]. split.
  - intros index question Hq Hnone. rewrite (Hlookup _ _ Hq). cbn. rewrite Hnone.
    reflexivity.
  - destruct (questions quiz); cbn; split; intros H; congruence.
Qed.

Lemma last_snoc_log (logs : list QuizLog) (log : QuizLog) : last (logs ++ [log]) = Some log.
Proof. apply last_snoc. Qed.

Lemma setResults_shape (timestamp : Z) (graded : QuizResults) (quizLogs : list QuizLog) :
  length (Quiz.setResults timestamp graded quizLogs) = length quizLogs
  /\ quizlog_quiz <$> Quiz.setResults timestamp graded quizLogs = quizlog_quiz <$> quizLogs
  /\ quizlog_timestamp <$> Quiz.setResults timestamp graded quizLogs
     = quizlog_timestamp <$> quizLogs.
Proof.
  induction quizLogs as [|log quizLogs [IHlen [IHquiz IHtime]]]; [repeat split|].
  cbn [Quiz.setResults]. case_bool_decide; cbn.
  - repeat split.
  - rewrite IHlen, IHquiz, IHtime. repeat split.
Qed.

Lemma setResults_last (graded : QuizResults) (logs : list QuizLog) (log : QuizLog) :
  Forall (fun l => quiz_timestamp (quizlog_quiz l) <> quiz_timestamp (quizlog_quiz log)) logs ->
  Quiz.setResults (quiz_timestamp (quizlog_quiz log)) graded (logs ++ [log])
  = logs ++ [mkQuizLog (quizlog_timestamp log) (quizlog_quiz log) (Some graded)].
Proof.
  induction 1 as [|l logs Hl _ IH]; cbn [app Quiz.setResults].
  - rewrite bool_decide_eq_true_2 by reflexivity. reflexivity.
  - rewrite bool_decide_eq_false_2 by exact Hl. rewrite IH. reflexivity.
Qed.

Lemma setResults_first (graded : QuizResults) (older : list QuizLog) (first : QuizLog)
    (newer : list QuizLog) :
  Forall (fun l => quiz_timestamp (quizlog_quiz l) <> quiz_timestamp (quizlog_quiz first))
         older ->
  Quiz.setResults (quiz_timestamp (quizlog_quiz first)) graded (older ++ first :: newer)
  = older ++ mkQuizLog (quizlog_timestamp first) (quizlog_quiz first) (Some graded) :: newer.
Proof.
  induction 1 as [|l logs Hl _ IH]; cbn [app Quiz.setResults].
  - rewrite bool_decide_eq_true_2 by reflexivity. reflexivity.
  - rewrite bool_decide_eq_false_2 by exact Hl. rewrite IH. reflexivity.
Qed.

(** X2. [handleGradeQuiz] answers "No active quiz found" when no quiz was
    logged, and leaves the (empty) log as it is.  Otherwise it grades the quiz
    of the last log entry and answers with the results; the log keeps its
    length and its quizzes.  The results are stored on the first entry whose
    quiz has the timestamp of the graded one: on the last entry when no
    earlier quiz shares its timestamp, on the earlier entry (the last one
    staying as it was) when one does. *)
Theorem handleGradeQuiz_grades_latest_quiz
    (answers : gmap string string) (logs : list QuizLog) (log : QuizLog) :
  let graded := Quiz.gradeQuiz (quizlog_quiz log) answers in
  let answer := Background.handleGradeQuiz answers (logs ++ [log]) in
  Background.handleGradeQuiz answers [] = (Return (Error "No active quiz found"), [])
  /\ fst answer = Return (Success graded)
  /\ length (snd answer) = length (logs ++ [log])
  /\ quizlog_quiz <$> snd answer = quizlog_quiz <$> (logs ++ [log])
  /\ (Forall (fun l => quiz_timestamp (quizlog_quiz l) <> quiz_timestamp (quizlog_quiz log))
             logs ->
      snd answer
      = logs ++ [mkQuizLog (quizlog_timestamp log) (quizlog_quiz log) (Some graded)])
  /\ (forall older first newer,
        logs = older ++ first :: newer ->
        quiz_timestamp (quizlog_quiz first) = quiz_timestamp (quizlog_quiz log) ->
        Forall (fun l => quiz_timestamp (quizlog_quiz l) <> quiz_timestamp (quizlog_quiz log))
               older ->
        snd answer
        = older ++ mkQuizLog (quizlog_timestamp first) (quizlog_quiz first) (Some graded)
                :: newer ++ [log]).
Proof.
  intros graded answer.
  assert (Hanswer : answer
    = (Return (Success graded),
       Quiz.setResults (quiz_timestamp (quizlog_quiz log)) graded (logs ++ [log]))).
  { subst answer graded.
    cbv [Background.handleGradeQuiz Background.respond Storage.getQuizLogs
         Quiz.saveQuizResults bind ret throw try_catch gets modify id].
    rewrite last_snoc_log. reflexivity. }
  rewrite Hanswer. cbn [fst snd].
  destruct (setResults_shape (quiz_timestamp (quizlog_quiz log)) graded (logs ++ [log]))
    as [Hlen [Hquiz _]].
  split; [reflexivity|]. split; [reflexivity|]. split; [exact Hlen|]. split; [exact Hquiz|].
  split; [apply setResults_last|].
  intros older first newer -> Hsame Hother. rewrite <- Hsame in *.
  rewrite <- app_assoc. cbn [app]. apply setResults_first. exact Hother.
Qed.

(** ** Numbers and texts *)

Lemma append_nil (s : string) : "" +:+ s = s.
Proof. reflexivity. Qed.

Lemma append_cons (c : ascii) (s t : string) : String c s +:+ t = String c (s +:+ t).
Proof. reflexivity. Qed.


Lemma pretty_N_char_digit (x : N) :
  (x < 10)%N -> digitValue 10 (pretty_N_char x) = Some (Z.of_N x).
Proof.
  intros Hx.
  assert (x = 0 \/ x = 1 \/ x = 2 \/ x = 3 \/ x = 4 \/ x = 5 \/ x = 6 \/ x = 7 \/ x = 8
          \/ x = 9)%N as H by lia.
  repeat (destruct H as [-> | H]; [reflexivity|]). subst x. reflexivity.
Qed.

Lemma pretty_N_char_leading (x : N) :
  (0 < x < 10)%N -> isLeadingDigit (pretty_N_char x) = true.
Proof.
  intros Hx.
  assert (x = 1 \/ x = 2 \/ x = 3 \/ x = 4 \/ x = 5 \/ x = 6 \/ x = 7 \/ x = 8
          \/ x = 9)%N as H by lia.
  repeat (destruct H as [-> | H]; [reflexivity|]). subst x. reflexivity.
Qed.

(** Reading back the digits [pretty_N_go] writes in front of [s]. *)
Lemma parseDigits_pretty_N_go (x : N) :
  (0 < x)%N ->
  exists k : Z, 0 < k /\ forall (s : string) (acc : option Z),
    parseDigits 10 (pretty_N_go x s) acc
    = parseDigits 10 s (Some (default 0 acc * 10 ^ k + Z.of_N x)).
Proof.
  induction (N.lt_wf_0 x) as [x _ IH]. intros Hpos.
  destruct (decide (x < 10)%N) as [Hsmall | Hbig].
  - exists 1. split; [lia|]. intros s acc.
    rewrite pretty_N_go_step by assumption.
    rewrite N.div_small, N.mod_small, pretty_N_go_0 by assumption.
    cbn [parseDigits]. rewrite pretty_N_char_digit by assumption.
    rewrite Z.pow_1_r. reflexivity.
  - destruct (IH (x `div` 10)%N) as [k [Hk Hread]].
    + apply N.div_lt; lia.
    + apply N.div_str_pos; lia.
    + exists (k + 1). split; [lia|]. intros s acc.
      rewrite pretty_N_go_step by assumption. rewrite Hread.
      cbn [parseDigits]. rewrite pretty_N_char_digit by (apply N.mod_lt; lia).
      cbn [default]. unfold id. do 2 f_equal.
      rewrite Z.pow_add_r, Z.pow_1_r by lia.
      rewrite (N.div_mod x 10) at 3 by lia.
      rewrite N2Z.inj_add, N2Z.inj_mul. change (Z.of_N 10) with 10. ring.
Qed.

(** The first character [pretty_N_go] writes is a digit other than 0. *)
Lemma pretty_N_go_leading (x : N) (s : string) :
  (0 < x)%N ->
  exists c rest, pretty_N_go x s = String c rest /\ isLeadingDigit c = true.
Proof.
  revert s. induction (N.lt_wf_0 x) as [x _ IH]. intros s Hpos.
  rewrite pretty_N_go_step by assumption.
  destruct (decide (x < 10)%N) as [Hsmall | Hbig].
  - rewrite N.div_small, N.mod_small, pretty_N_go_0 by assumption.
    eexists _, _. split; [reflexivity|]. apply pretty_N_char_leading. lia.
  - apply IH; [apply N.div_lt | apply N.div_str_pos]; lia.
Qed.

Lemma isLeadingDigit_cases (c : ascii) :
  isLeadingDigit c = true ->
  c = "1"%char \/ c = "2"%char \/ c = "3"%char \/ c = "4"%char \/ c = "5"%char
  \/ c = "6"%char \/ c = "7"%char \/ c = "8"%char \/ c = "9"%char.
Proof.
  unfold isLeadingDigit. intros H.
  apply andb_prop in H as [Hlo Hhi].
  apply N.leb_le in Hlo, Hhi.
  rewrite <- (ascii_N_embedding c).
  assert (N_of_ascii c = 49 \/ N_of_ascii c = 50 \/ N_of_ascii c = 51 \/ N_of_ascii c = 52
          \/ N_of_ascii c = 53 \/ N_of_ascii c = 54 \/ N_of_ascii c = 55
          \/ N_of_ascii c = 56 \/ N_of_ascii c = 57)%N as Hc by lia.
  repeat (destruct Hc as [-> | Hc]; [tauto|]). rewrite Hc. tauto.
Qed.

Lemma parseDigits_pretty (p : positive) :
  exists c rest, pretty_N_go (Npos p) "" = String c rest
    /\ isLeadingDigit c = true
    /\ parseDigits 10 (String c rest) None = Some (Zpos p).
Proof.
  destruct (pretty_N_go_leading (Npos p) "") as [c [rest [Hshape Hc]]]; [lia|].
  destruct (parseDigits_pretty_N_go (Npos p)) as [k [_ Hread]]; [lia|].
  exists c, rest. split; [exact Hshape|]. split; [exact Hc|].
  rewrite <- Hshape, Hread. cbn [parseDigits default]. try reflexivity; f_equal; lia.
Qed.

Ltac read_digits Hread :=
  cbn [String.append trimStart];
  repeat match goal with |- context [isWhiteSpace ?c] =>
    let b := eval vm_compute in (isWhiteSpace c) in change (isWhiteSpace c) with b end;
  cbn -[parseDigits]; rewrite Hread; reflexivity.

Lemma parseInt_positive (p : positive) : parseInt (pretty (Npos p)) = Some (Zpos p).
Proof.
  unfold pretty, pretty_N. rewrite decide_False by discriminate.
  destruct (parseDigits_pretty p) as [c [rest [-> [Hc Hread]]]].
  apply isLeadingDigit_cases in Hc. unfold parseInt.
  repeat (destruct Hc as [-> | Hc]; [read_digits Hread|]).
  subst c. read_digits Hread.
Qed.

Lemma parseInt_negative (p : positive) :
  parseInt (String "-" (pretty (Npos p))) = Some (Zneg p).
Proof.
  unfold pretty, pretty_N. rewrite decide_False by discriminate.
  destruct (parseDigits_pretty p) as [c [rest [-> [Hc Hread]]]].
  apply isLeadingDigit_cases in Hc. unfold parseInt.
  repeat (destruct Hc as [-> | Hc]; [read_digits Hread|]).
  subst c. read_digits Hread.
Qed.

(** [parseInt(String(n)) === n] *)
Lemma parseInt_toString (n : Z) : parseInt (toString n) = Some n.
Proof.
  destruct n as [|p|p]; [reflexivity | apply parseInt_positive | apply parseInt_negative].
Qed.

Lemma split_single (sep : ascii) (s : string) : occurs sep s = false -> split sep s = [s].
Proof.
  induction s as [|c s IH]; [reflexivity|]. cbn [occurs split]. intros H.
  apply orb_false_elim in H as [Hc Hs]. rewrite Hc, (IH Hs). reflexivity.
Qed.

Lemma split_app (sep : ascii) (s rest : string) :
  occurs sep s = false -> split sep (s +:+ String sep rest) = s :: split sep rest.
Proof.
  induction s as [|c s IH]; rewrite ?append_nil, ?append_cons; cbn [occurs split]; intros H.
  - rewrite bool_decide_eq_true_2 by reflexivity. reflexivity.
  - apply orb_false_elim in H as [Hc Hs]. rewrite Hc, (IH Hs). reflexivity.
Qed.

Lemma split_join (sep : ascii) (fields : list string) :
  Forall (fun field => occurs sep field = false) fields -> fields <> [] ->
  split sep (join sep fields) = fields.
Proof.
  induction 1 as [|field fields Hfield Hfields IH]; [congruence|]. intros _.
  destruct fields as [|field' fields].
  - apply split_single, Hfield.
  - change (join sep (field :: field' :: fields))
      with (field +:+ String sep (join sep (field' :: fields))).
    rewrite split_app by exact Hfield. rewrite IH by discriminate. reflexivity.
Qed.

Lemma split_fields (sep : ascii) (s : string) :
  Forall (fun field => occurs sep field = false) (split sep s).
Proof.
  induction s as [|c s IH]; [repeat constructor|]. cbn [split].
  case_bool_decide as Hc; [constructor; [reflexivity | exact IH]|].
  destruct (split sep s) as [|field fields]; inversion IH; subst.
  - repeat constructor. cbn. rewrite bool_decide_eq_false_2 by exact Hc. reflexivity.
  - constructor; [|assumption]. cbn [occurs].
    rewrite bool_decide_eq_false_2 by exact Hc. assumption.
Qed.

Lemma occurs_app (c : ascii) (s t : string) :
  occurs c (s +:+ t) = occurs c s || occurs c t.
Proof.
  induction s as [|c' s IH]; [reflexivity|]. rewrite append_cons. cbn [occurs].
  rewrite IH. apply orb_assoc.
Qed.

Lemma occurs_join (c sep : ascii) (fields : list string) :
  c <> sep -> Forall (fun field => occurs c field = false) fields ->
  occurs c (join sep fields) = false.
Proof.
  intros Hne. induction 1 as [|field fields Hfield Hfields IH]; [reflexivity|].
  destruct fields as [|field' fields]; [exact Hfield|].
  change (join sep (field :: field' :: fields))
    with (field +:+ String sep (join sep (field' :: fields))).
  rewrite occurs_app, Hfield. cbn [occurs orb]. rewrite IH.
  rewrite bool_decide_eq_false_2 by congruence. reflexivity.
Qed.


(** [pretty_N_go] writes digits only. *)
Lemma occurs_pretty_N_go (c : ascii) (x : N) (s : string) :
  (forall d, pretty_N_char d <> c) ->
  occurs c (pretty_N_go x s) = occurs c s.
Proof.
  intros Hc. revert s. induction (N.lt_wf_0 x) as [x _ IH]. intros s.
  destruct (decide (0 < x)%N) as [Hpos | Hzero].
  - rewrite pretty_N_go_step by assumption. rewrite IH by (apply N.div_lt; lia).
    cbn [occurs]. rewrite bool_decide_eq_false_2 by apply Hc. reflexivity.
  - replace x with 0%N by lia. reflexivity.
Qed.

Lemma pretty_N_char_cases (d : N) :
  pretty_N_char d = "0"%char \/ pretty_N_char d = "1"%char \/ pretty_N_char d = "2"%char
  \/ pretty_N_char d = "3"%char \/ pretty_N_char d = "4"%char \/ pretty_N_char d = "5"%char
  \/ pretty_N_char d = "6"%char \/ pretty_N_char d = "7"%char \/ pretty_N_char d = "8"%char
  \/ pretty_N_char d = "9"%char.
Proof. unfold pretty_N_char. repeat case_match; tauto. Qed.

(** [String(n)] is made of digits and a minus sign. *)
Lemma occurs_toString (c : ascii) (n : Z) :
  digitValue 10 c = None -> c <> "-"%char -> occurs c (toString n) = false.
Proof.
  intros Hdigit Hminus.
  assert (Hc : forall d, pretty_N_char d <> c).
  { intros d Heq. subst c.
    destruct (pretty_N_char_cases d) as [H|[H|[H|[H|[H|[H|[H|[H|[H|H]]]]]]]]];
      rewrite H in Hdigit; discriminate. }
  assert (Hpos : forall p, occurs c (pretty (Npos p)) = false).
  { intros p. unfold pretty, pretty_N. rewrite decide_False by discriminate.
    rewrite occurs_pretty_N_go by exact Hc. reflexivity. }
  destruct n as [|p|p].
  - cbn. rewrite bool_decide_eq_false_2; [reflexivity|].
    intros Heq. subst c. discriminate.
  - apply Hpos.
  - change (toString (Zneg p)) with (String "-" (pretty (Npos p))).
    cbn [occurs]. rewrite Hpos. rewrite bool_decide_eq_false_2 by congruence. reflexivity.
Qed.

Lemma toString_nonempty (n : Z) : toString n <> "".
Proof.
  destruct n as [|p|p]; [discriminate | | discriminate].
  unfold toString, pretty, pretty_Z, pretty, pretty_positive, pretty, pretty_N.
  rewrite decide_False by discriminate.
  destruct (pretty_N_go_leading (Npos p) "") as [c [rest [-> _]]]; [lia | discriminate].
Qed.

(** ** The cron expression *)

Lemma occurs_cronField (c : ascii) (n : option Z) :
  digitValue 10 c = None -> c <> "-"%char -> c <> "*"%char ->
  occurs c (cronField n) = false.
Proof.
  intros Hdigit Hminus Hstar. destruct n as [n|]; [apply occurs_toString; assumption|].
  cbn. rewrite bool_decide_eq_false_2 by congruence. reflexivity.
Qed.

Lemma occurs_cronListField (l : option (list Z)) : occurs " " (cronListField l) = false.
Proof.
  destruct l as [l|]; [|reflexivity]. apply occurs_join; [discriminate|].
  apply Forall_fmap, Forall_forall. intros n _. apply occurs_toString; [reflexivity | discriminate].
Qed.

Lemma split_cron (minute hour dayOfMonth month dayOfWeek : string) :
  occurs " " minute = false -> occurs " " hour = false -> occurs " " dayOfMonth = false ->
  occurs " " month = false -> occurs " " dayOfWeek = false ->
  split " " (cron minute hour dayOfMonth month dayOfWeek)
  = [minute; hour; dayOfMonth; month; dayOfWeek].
Proof.
  intros. apply split_join; [|discriminate]. repeat constructor; assumption.
Qed.

(** A number field rejects every number but its own. *)
Lemma numberField_rejects (n : option Z) (current : Z) :
  bool_decide (cronField n <> "*") && negb (bool_decide (parseInt (cronField n) = Some current))
  = match n with
    | Some k => negb (bool_decide (current = k))
    | None => false
    end.
Proof.
  destruct n as [n|].
  - cbn [cronField]. rewrite parseInt_toString.
    rewrite bool_decide_eq_true_2.
    + cbn [andb]. f_equal. apply bool_decide_ext. split; congruence.
    + intros Heq. pose proof (occurs_toString "*" n eq_refl) as H.
      rewrite Heq in H. discriminate H. discriminate.
  - reflexivity.
Qed.

(** A list field rejects every number that is not in its list. *)
Lemma listField_rejects (l : option (list Z)) (current : Z) :
  bool_decide (cronListField l <> "*")
  && negb (bool_decide (toString current ∈ split "," (cronListField l)))
  = match l with
    | Some days => negb (bool_decide (current ∈ days))
    | None => false
    end.
Proof.
  destruct l as [days|]; [|reflexivity].
  cbn [cronListField]. rewrite bool_decide_eq_true_2.
  - cbn [andb]. f_equal. apply bool_decide_ext.
    destruct days as [|day days].
    + cbn. split.
      * intros Hin. apply list_elem_of_singleton in Hin.
        destruct (toString_nonempty _ Hin).
      * intros H. inversion H.
    + rewrite split_join; [| |discriminate].
      * split.
        -- intros Hin. apply list_elem_of_fmap in Hin as [n [Heq Hn]].
           apply (inj pretty) in Heq. subst. exact Hn.
        -- intros H. apply list_elem_of_fmap. exists current. split; [reflexivity | exact H].
      * apply Forall_fmap, Forall_forall. intros n _.
        apply occurs_toString; [reflexivity | discriminate].
  - intros Heq.
    assert (H : occurs "*" (join "," (toString <$> days)) = false).
    { apply occurs_join; [discriminate|]. apply Forall_fmap, Forall_forall. intros n _.
      apply occurs_toString; [reflexivity | discriminate]. }
    rewrite Heq in H. discriminate H.
Qed.

(** X3. [matchesCron] on an expression of five fields looks at the minute,
    the hour and the day of the week only: whatever the day-of-month and month
    fields say, the date matches exactly when its minutes are the number of
    the minute field, its hours the number of the hour field and its day of
    the week one of the numbers of the comma-separated last field, a field
    [*] asking for nothing. *)
Theorem matchesCron_checks_three_fields
    (date : DateFields) (minute hour : option Z) (days : option (list Z))
    (dayOfMonth month : string) :
  occurs " " dayOfMonth = false -> occurs " " month = false ->
  Timer.matchesCron date
    (cron (cronField minute) (cronField hour) dayOfMonth month (cronListField days)) = true
  <-> (forall n, minute = Some n -> getMinutes date = n)
      /\ (forall n, hour = Some n -> getHours date = n)
      /\ (forall l, days = Some l -> getDay date ∈ l).
Proof.
  intros Hdom Hmonth. unfold Timer.matchesCron.
  rewrite split_cron; try assumption;
    try (apply occurs_cronField; [reflexivity | discriminate | discriminate]);
    try apply occurs_cronListField.
  rewrite listField_rejects, !numberField_rejects.
  destruct minute as [minute|], hour as [hour|], days as [days|];
    repeat case_bool_decide; cbn [negb];
    (split; [intros ?; repeat split; intros ? [= <-] | intros (Hm & Hh & Hd)]);
    try discriminate; try assumption; try reflexivity; exfalso; eauto.
Qed.

Lemma matchesCron_checks_three_fields_witness :
  let saturdayAtTen := mkDateFields 6 10 0 in
  Timer.matchesCron saturdayAtTen "0 10 * * 6,0" = true
  <-> (forall n, Some 0 = Some n -> getMinutes saturdayAtTen = n)
      /\ (forall n, Some 10 = Some n -> getHours saturdayAtTen = n)
      /\ (forall l, Some [6; 0] = Some l -> getDay saturdayAtTen ∈ l).
Proof.
  exact (matchesCron_checks_three_fields (mkDateFields 6 10 0) (Some 0) (Some 10)
           (Some [6; 0]) "*" "*" eq_refl eq_refl).
Defined.

(** ** The timer display *)









(** ** The name of a problem *)

Lemma occurs_takeUntil (sep : ascii) (s : string) : occurs sep (Logger.takeUntil sep s) = false.
Proof.
  induction s as [|c s IH]; [reflexivity|]. cbn [Logger.takeUntil].
  case_bool_decide as Hc; [reflexivity|]. cbn [occurs].
  rewrite IH, bool_decide_eq_false_2 by exact Hc. reflexivity.
Qed.

Lemma takeUntil_app (sep : ascii) (s rest : string) :
  occurs sep s = false -> Logger.takeUntil sep (s +:+ String sep rest) = s.
Proof.
  induction s as [|c s IH]; rewrite ?append_nil, ?append_cons; cbn [occurs Logger.takeUntil];
    intros H.
  - rewrite bool_decide_eq_true_2 by reflexivity. reflexivity.
  - apply orb_false_elim in H as [Hc Hs]. rewrite Hc, (IH Hs). reflexivity.
Qed.

Lemma takeUntil_all (sep : ascii) (s : string) :
  occurs sep s = false -> Logger.takeUntil sep s = s.
Proof.
  induction s as [|c s IH]; [reflexivity|]. cbn [occurs Logger.takeUntil]. intros H.
  apply orb_false_elim in H as [Hc Hs]. rewrite Hc, (IH Hs). reflexivity.
Qed.

Lemma problemsGroupHere_name (s name : string) :
  Logger.problemsGroupHere s = Some name -> name <> "" /\ occurs "/" name = false.
Proof.
  unfold Logger.problemsGroupHere.
  destruct (Logger.stripPrefix "problems/" s) as [rest|]; [|discriminate].
  pose proof (occurs_takeUntil "/" rest) as Hfree.
  destruct (Logger.takeUntil "/" rest) as [|c t]; [discriminate|].
  intros [= <-]. split; [discriminate | exact Hfree].
Qed.

Lemma problemsGroup_name (url name : string) :
  Logger.problemsGroup url = Some name -> name <> "" /\ occurs "/" name = false.
Proof.
  induction url as [|c url IH]; cbn [Logger.problemsGroup].
  - destruct (Logger.problemsGroupHere "") as [here|] eqn:Hhere; [|discriminate].
    intros [= <-]. exact (problemsGroupHere_name _ _ Hhere).
  - destruct (Logger.problemsGroupHere (String c url)) as [here|] eqn:Hhere; [|exact IH].
    intros [= <-]. exact (problemsGroupHere_name _ _ Hhere).
Qed.

(** The regular expression matches where the text [problems/] is followed
    by a name. *)
Lemma problemsGroupHere_slug (slug rest : string) :
  slug <> "" -> occurs "/" slug = false ->
  Logger.problemsGroupHere ("problems/" +:+ slug) = Some slug
  /\ Logger.problemsGroupHere ("problems/" +:+ slug +:+ String "/" rest) = Some slug.
Proof.
  intros Hne Hfree. unfold Logger.problemsGroupHere. split.
  - change (Logger.stripPrefix "problems/" ("problems/" +:+ slug)) with (Some slug).
    cbv iota beta. rewrite takeUntil_all by exact Hfree.
    destruct slug; [congruence | reflexivity].
  - change (Logger.stripPrefix "problems/" ("problems/" +:+ slug +:+ String "/" rest))
      with (Some (slug +:+ String "/" rest)).
    cbv iota beta. rewrite takeUntil_app by exact Hfree.
    destruct slug; [congruence | reflexivity].
Qed.

Lemma problemsGroup_here (url name : string) :
  Logger.problemsGroupHere url = Some name -> Logger.problemsGroup url = Some name.
Proof. intros Hhere. destruct url; cbn [Logger.problemsGroup]; rewrite Hhere; reflexivity. Qed.

(** No match starts at a character other than [p], nor at a [p] that is
    not followed by [r]. *)
Lemma problemsGroup_skip (c : ascii) (url : string) :
  c <> "p"%char -> Logger.problemsGroup (String c url) = Logger.problemsGroup url.
Proof.
  intros Hc. cbn [Logger.problemsGroup]. unfold Logger.problemsGroupHere.
  cbn [Logger.stripPrefix]. rewrite bool_decide_eq_false_2 by congruence. reflexivity.
Qed.

Lemma problemsGroup_skip_p (c : ascii) (url : string) :
  c <> "r"%char ->
  Logger.problemsGroup (String "p" (String c url)) = Logger.problemsGroup (String c url).
Proof.
  intros Hc. cbn [Logger.problemsGroup]. unfold Logger.problemsGroupHere at 1.
  cbn [Logger.stripPrefix]. rewrite bool_decide_eq_true_2 by reflexivity.
  rewrite bool_decide_eq_false_2 by congruence. reflexivity.
Qed.

Lemma problemsGroup_leetcode (tail name : string) :
  Logger.problemsGroupHere tail = Some name ->
  Logger.problemsGroup ("https://leetcode.com/" +:+ tail) = Some name.
Proof.
  intros Hhere. rewrite !append_cons, append_nil.
  rewrite !problemsGroup_skip by discriminate.
  rewrite problemsGroup_skip_p by discriminate.
  rewrite !problemsGroup_skip by discriminate.
  apply problemsGroup_here, Hhere.
Qed.

Lemma problemsGroup_slashes (n : nat) : Logger.problemsGroup (repeatChar n "/") = None.
Proof.
  induction n as [|n IH]; [reflexivity|]. cbn [repeatChar].
  rewrite problemsGroup_skip by discriminate. exact IH.
Qed.

Lemma parts_slashes (n : nat) :
  filter (fun part => part <> "") (split "/" (repeatChar n "/")) = [].
Proof.
  induction n as [|n IH]; [reflexivity|]. cbn [repeatChar split].
  rewrite bool_decide_eq_true_2 by reflexivity.
  rewrite filter_cons_False by (intros H; apply H; reflexivity). exact IH.
Qed.

(** X5. The name [extractProblemName] gives is never empty and never
    contains a slash, whatever the URL.  For a LeetCode problem URL it is the
    slug that follows [problems/], with or without anything after the next
    slash; for a URL made of slashes only (the empty one too) it is
    "unknown-problem". *)
Theorem extractProblemName_gives_a_file_name (url : string) :
  Logger.extractProblemName url <> ""
  /\ occurs "/" (Logger.extractProblemName url) = false
  /\ (forall slug rest,
        slug <> "" -> occurs "/" slug = false ->
        url = "https://leetcode.com/problems/" +:+ slug
        \/ url = "https://leetcode.com/problems/" +:+ slug +:+ String "/" rest ->
        Logger.extractProblemName url = slug)
  /\ (forall n, url = repeatChar n "/" -> Logger.extractProblemName url = "unknown-problem").
Proof.
  split; [|split; [|split]].
  - unfold Logger.extractProblemName.
    destruct (Logger.problemsGroup url) as [name|] eqn:Hname.
    + apply (problemsGroup_name _ _ Hname).
    + destruct (last (filter (fun part => part <> "") (split "/" url))) as [part|] eqn:Hlast;
        [|discriminate].
      apply last_Some_elem_of, list_elem_of_filter in Hlast as [Hpart _]. exact Hpart.
  - unfold Logger.extractProblemName.
    destruct (Logger.problemsGroup url) as [name|] eqn:Hname.
    + apply (problemsGroup_name _ _ Hname).
    + destruct (last (filter (fun part => part <> "") (split "/" url))) as [part|] eqn:Hlast;
        [|reflexivity].
      apply last_Some_elem_of, list_elem_of_filter in Hlast as [_ Hpart].
      pose proof (split_fields "/" url) as Hfields.
      rewrite Forall_forall in Hfields. apply Hfields, Hpart.
  - intros slug rest Hne Hfree Hurl.
    destruct (problemsGroupHere_slug slug rest Hne Hfree) as [Hend Hmore].
    unfold Logger.extractProblemName.
    assert (Hgroup : Logger.problemsGroup url = Some slug); [|rewrite Hgroup; reflexivity].
    destruct Hurl as [-> | ->].
    + exact (problemsGroup_leetcode _ _ Hend).
    + exact (problemsGroup_leetcode _ _ Hmore).
  - intros n ->. unfold Logger.extractProblemName.
    rewrite problemsGroup_slashes, parts_slashes. reflexivity.
Qed.

Lemma extractProblemName_gives_a_file_name_witness :
  Logger.extractProblemName (url twoSum) = "two-sum".
Proof.
  exact (proj1 (proj2 (proj2 (extractProblemName_gives_a_file_name (url twoSum))))
           "two-sum" "" ltac:(discriminate) eq_refl (or_intror eq_refl)).
Defined.

(** ** Saving the configuration *)

Lemma delay_ms_minutes (minutes : Z) :
  Alarms.delay_ms (inject_Z minutes) = minutes * 60000.
Proof.
  unfold Alarms.delay_ms.
  rewrite <- (Qfloor_Z (minutes * 60000)). apply Qfloor_comp.
  unfold Qeq, Qmult, inject_Z; simpl. lia.
Qed.

Lemma handleConfigUpdate_spec (config : Config) (fetched : list Problem) (w : World) :
  Background.handleConfigUpdate config fetched w
  = (Return (Success tt), reconfigured config fetched w).
Proof.
  cbv [Background.handleConfigUpdate Background.respond Storage.saveConfig
       Timer.scheduleAlarms Alarms.clearAll Alarms.createPeriodic
       bind ret throw try_catch gets modify reconfigured].
  case_bool_decide; cbn [fst snd]; rewrite delay_ms_minutes; reflexivity.
Qed.

(** X6. [handleConfigUpdate] always succeeds.  It stores the new phase
    durations, which replace the defaults altogether, and it replaces the
    problem list (restarting at index 0) exactly when a problem list URL is
    configured.  [scheduleAlarms] then clears every alarm and leaves the daily
    quiz reminder as the only one: the alarm of a running phase is gone, so
    its remaining time reads 0 and its timeout is never delivered, while the
    stored record, the log and the notifications are untouched and a later
    manual completion still logs the interval from its original start. *)
Theorem configUpdate_cancels_phase_alarms
    (config : Config) (fetched : list Problem) (w : World) :
  let w' := exec (Background.handleConfigUpdate config fetched) w in
  fst (Background.handleConfigUpdate config fetched w) = Return (Success tt)
  /\ alarms w' = {["quizReminderCheck" := clock w + 86400000]}
  /\ currentPhaseItem w' = currentPhaseItem w
  /\ logs w' = logs w
  /\ notifications w' = notifications w
  /\ durations w' = phaseDurations config
  /\ (problems w', currentIndex w')
     = (if bool_decide (problemListUrl config <> "") then (fetched, Some 0%nat)
        else (problems w, currentIndex w))
  /\ (forall phase d, phase <> "quizReminderCheck" ->
        fst (Timer.getRemainingTime phase w') = Return 0
        /\ Background.fireAlarm phase (elapse d w') = (Return None, elapse d w'))
  /\ (forall r phase problemUrl d, currentPhaseItem w = Some r ->
        logs (exec (Background.handleCompletePhase phase problemUrl) (elapse d w'))
        = logs w ++ [completedEntry problemUrl phase r (clock w + d)]).
Proof.
  intros w'. subst w'. unfold exec. rewrite handleConfigUpdate_spec. cbn [fst snd].
  assert (Halarm : forall phase, phase <> "quizReminderCheck" ->
            alarms (reconfigured config fetched w) !! phase = None).
  { intros phase Hne. unfold reconfigured. cbn [alarms set_alarms].
    apply lookup_singleton_ne. congruence. }
  split; [reflexivity|].
  split; [unfold reconfigured; case_bool_decide; reflexivity|].
  split; [unfold reconfigured; case_bool_decide; reflexivity|].
  split; [unfold reconfigured; case_bool_decide; reflexivity|].
  split; [unfold reconfigured; case_bool_decide; reflexivity|].
  split; [unfold reconfigured; case_bool_decide; reflexivity|].
  split; [unfold reconfigured; case_bool_decide; reflexivity|].
  split.
  - intros phase d Hne. specialize (Halarm phase Hne). split.
    + js. rewrite Halarm. reflexivity.
    + js. cbn [alarms elapse set_clock]. rewrite Halarm. reflexivity.
  - intros r phase problemUrl d Hr.
    rewrite (handleCompletePhase_active _ _ r).
    + unfold reconfigured; case_bool_decide; reflexivity.
    + unfold reconfigured; case_bool_decide; exact Hr.
Qed.

Lemma orNumber_nonzero (n : option Z) (fallback : Z) :
  fallback <> 0 -> orNumber n fallback <> 0.
Proof. intros Hf. destruct n as [[| |]|]; cbn; congruence. Qed.

Lemma phaseDurationsOf_lookup (form : OptionsForm) (phase input : string) (fallback : Z) :
  (phase, (input, fallback)) ∈ durationInputs form ->
  Options.phaseDurationsOf form !! phase = Some (orNumber (parseInt input) fallback)
  /\ fallback <> 0.
Proof.
  unfold durationInputs. intros Hin.
  repeat (apply elem_of_cons in Hin as [[= -> -> ->] | Hin]; [split; [reflexivity | lia]|]).
  inversion Hin.
Qed.

Lemma acceptedUrl_test (isValidUrl : string -> bool) (url : string) :
  bool_decide (url <> "") && negb (isValidUrl url) = negb (acceptedUrl isValidUrl url).
Proof.
  unfold acceptedUrl.
  destruct (isValidUrl url); repeat case_bool_decide; try reflexivity; contradiction.
Qed.

Lemma saveConfig_accepted (isValidUrl : string -> bool) (fetched : list Problem)
    (form : OptionsForm) (w : World) :
  acceptedUrl isValidUrl (trim (problemListUrlInput form)) = true ->
  acceptedUrl isValidUrl (trim (aiEndpointInput form)) = true ->
  Options.saveConfig isValidUrl fetched form w
  = (Return "Configuration saved successfully!",
     reconfigured (mkConfig (trim (problemListUrlInput form)) (Options.phaseDurationsOf form))
       fetched w).
Proof.
  intros Hurl Hai.
  unfold Options.saveConfig. cbn [problemListUrl phaseDurations].
  rewrite !acceptedUrl_test, Hurl, Hai.
  cbv [bind ret try_catch Storage.saveConfig modify negb].
  rewrite handleConfigUpdate_spec.
  unfold reconfigured. cbn [problemListUrl phaseDurations].
  case_bool_decide; reflexivity.
Qed.

Lemma saveConfig_rejected (isValidUrl : string -> bool) (fetched : list Problem)
    (form : OptionsForm) (w : World) :
  acceptedUrl isValidUrl (trim (problemListUrlInput form))
  && acceptedUrl isValidUrl (trim (aiEndpointInput form)) = false ->
  Options.saveConfig isValidUrl fetched form w
  = (Return ("Error saving configuration: "
             +:+ (if acceptedUrl isValidUrl (trim (problemListUrlInput form))
                  then "Invalid AI endpoint URL" else "Invalid problem list URL")), w).
Proof.
  intros Hrej.
  unfold Options.saveConfig. cbn [problemListUrl phaseDurations].
  rewrite !acceptedUrl_test.
  destruct (acceptedUrl isValidUrl (trim (problemListUrlInput form))).
  - cbn [andb] in Hrej. rewrite Hrej. reflexivity.
  - reflexivity.
Qed.

Lemma orNumber_safe (input : string) (fallback : Z) :
  safeInput input = true -> Z.abs fallback <= 2 ^ 53 ->
  Z.abs (orNumber (parseInt input) fallback) <= 2 ^ 53.
Proof.
  unfold safeInput. intros Hsafe Hfallback.
  destruct (parseInt input) as [[|n|n]|]; cbn [orNumber]; try assumption;
    apply Z.leb_le, Hsafe.
Qed.

(** X7. [saveConfig] of the options page, its duration inputs holding no
    number beyond 2^53 (those JavaScript rounds), either rejects the form, when
    the problem list URL or the AI endpoint is not empty and not a valid URL,
    and then stores nothing and shows an error; or it saves, and then each of
    the four phases has a stored duration other than 0, so that starting it
    succeeds: the number typed in its input when that is not 0 (a negative
    number too), and the default of the phase when the input holds 0 or no
    number.  Starting the phase answers with that duration, stores the record
    of the interval and leaves an alarm of its name pending. *)
Theorem saveConfig_saves_startable_durations
    (isValidUrl : string -> bool) (fetched : list Problem) (form : OptionsForm) (w : World) :
  Forall (fun item => safeInput (fst (snd item)) = true) (durationInputs form) ->
  let saved := Options.saveConfig isValidUrl fetched form w in
  if acceptedUrl isValidUrl (trim (problemListUrlInput form))
     && acceptedUrl isValidUrl (trim (aiEndpointInput form))
  then
    fst saved = Return "Configuration saved successfully!"
    /\ forall phase input fallback,
         (phase, (input, fallback)) ∈ durationInputs form ->
         exists d,
           durations (snd saved) !! phase = Some d
           /\ d <> 0
           /\ Z.abs d <= 2 ^ 53
           /\ (forall n, input = toString n -> d = if bool_decide (n = 0) then fallback else n)
           /\ (parseInt input = None -> d = fallback)
           /\ forall problemUrl,
                let answer := Background.handleStartPhase phase problemUrl (snd saved) in
                fst answer = Return (Success (mkStartInfo phase d (clock w)))
                /\ currentPhaseItem (snd answer)
                   = Some (mkPhaseRecord problemUrl phase (clock w))
                /\ is_Some (alarms (snd answer) !! phase)
  else
    snd saved = w
    /\ exists reason, fst saved = Return ("Error saving configuration: " +:+ reason).
Proof.
  intros Hsafe saved. subst saved.
  destruct (acceptedUrl isValidUrl (trim (problemListUrlInput form))
            && acceptedUrl isValidUrl (trim (aiEndpointInput form))) eqn:Haccepted.
  - apply andb_prop in Haccepted as [Hurl Hai].
    rewrite saveConfig_accepted by assumption. cbn [fst snd].
    split; [reflexivity|]. intros phase input fallback Hin.
    assert (Hinput : safeInput input = true).
    { rewrite Forall_forall in Hsafe. apply (Hsafe _ Hin). }
    assert (Hsmall : Z.abs fallback <= 2 ^ 53).
    { unfold durationInputs in Hin.
      repeat (apply elem_of_cons in Hin as [[= _ _ ->] | Hin]; [cbn; lia|]).
      inversion Hin. }
    apply phaseDurationsOf_lookup in Hin as [Hlookup Hfallback].
    exists (orNumber (parseInt input) fallback).
    assert (Hd : durations (reconfigured
                   (mkConfig (trim (problemListUrlInput form)) (Options.phaseDurationsOf form))
                   fetched w) !! phase = Some (orNumber (parseInt input) fallback)).
    { unfold reconfigured. cbn [problemListUrl phaseDurations].
      case_bool_decide; exact Hlookup. }
    split; [exact Hd|]. split; [apply orNumber_nonzero, Hfallback|].
    split; [apply orNumber_safe; assumption|]. split; [|split].
    + intros n ->. rewrite parseInt_toString. case_bool_decide as Hn.
      * subst n. reflexivity.
      * destruct n; [congruence | reflexivity | reflexivity].
    + intros ->. reflexivity.
    + intros problemUrl.
      rewrite (handleStartPhase_ok _ _ (orNumber (parseInt input) fallback));
        [|exact Hd | apply orNumber_nonzero, Hfallback].
      cbn [fst snd].
      match goal with |- context [started ?p ?u ?d ?x] =>
        destruct (started_fields p u d x) as (Hitem & Halarm & _) end.
      split; [|split; [|exact Halarm]].
      * do 3 f_equal. unfold reconfigured. case_bool_decide; reflexivity.
      * rewrite Hitem. do 2 f_equal. unfold reconfigured. case_bool_decide; reflexivity.
  - rewrite saveConfig_rejected by assumption. cbn [fst snd].
    split; [reflexivity|]. eexists. reflexivity.
Qed.

Lemma saveConfig_saves_startable_durations_witness :
  Forall (fun item => safeInput (fst (snd item)) = true) (durationInputs sampleForm)
  /\ fst (Options.saveConfig (fun _ => true) [] sampleForm freshWorld)
     = Return "Configuration saved successfully!".
Proof.
  assert (Hsafe : Forall (fun item => safeInput (fst (snd item)) = true)
                         (durationInputs sampleForm))
    by (repeat constructor).
  split; [exact Hsafe|].
  exact (proj1 (saveConfig_saves_startable_durations (fun _ => true) [] sampleForm freshWorld
                  Hsafe)).
Defined.

(** ** Moving through the list of problems *)

Lemma iterate_succ {A} (n : nat) (f : A -> A) (a : A) :
  iterate (S n) f a = f (iterate n f a).
Proof.
  revert a. induction n as [|n IH]; intros a; [reflexivity|].
  change (iterate (S (S n)) f a) with (iterate (S n) f (f a)).
  rewrite IH. reflexivity.
Qed.

Lemma nextIndex_nonempty (i : nat) (problems : list Problem) :
  problems <> [] -> Background.nextIndex i problems = Some ((i + 1) mod length problems)%nat.
Proof. destruct problems; [congruence | reflexivity]. Qed.

(** The world after [k + 1] calls of [handleSkipProblem]. *)
Lemma skipped_again (w : World) (k : nat) :
  problems w <> [] ->
  iterate (S k) (exec Background.handleSkipProblem) w
  = set_currentIndex
      (Some ((default 0%nat (currentIndex w) + S k) mod length (problems w))%nat) w.
Proof.
  intros Hne. induction k as [|k IH].
  - cbn [iterate]. unfold exec. rewrite handleSkipProblem_spec. cbn [snd]. unfold skipped.
    rewrite nextIndex_nonempty by assumption. reflexivity.
  - rewrite iterate_succ, IH. unfold exec. rewrite handleSkipProblem_spec. cbn [snd].
    unfold skipped. cbn [problems currentIndex set_currentIndex default].
    rewrite nextIndex_nonempty by assumption. unfold id at 1.
    rewrite Nat.Div0.add_mod_idemp_l.
    unfold set_currentIndex. cbn. do 3 f_equal. lia.
Qed.

(** X8. With a list of [n] problems ([n] > 0) and the stored index [i] (0
    when none is stored), the skip that follows [k] earlier skips answers with
    the problem at position [(i + k + 1) mod n], which exists, and stores that
    position; skipping touches nothing else (list, log, solutions, alarms,
    stored phase record).  After [n] skips from an index within the list the
    index is back where it was. *)
Theorem skipping_rotates_through_the_list (w : World) (k : nat) :
  problems w <> [] ->
  let n := length (problems w) in
  let i := default 0%nat (currentIndex w) in
  let w' := iterate k (exec Background.handleSkipProblem) w in
  (exists problem,
     problems w !! ((i + k + 1) mod n)%nat = Some problem
     /\ Background.handleSkipProblem w'
        = (Return (Success (Some problem)),
           set_currentIndex (Some ((i + k + 1) mod n)%nat) w'))
  /\ problems w' = problems w
  /\ logs w' = logs w
  /\ solutions w' = solutions w
  /\ alarms w' = alarms w
  /\ currentPhaseItem w' = currentPhaseItem w
  /\ ((i < n)%nat -> currentIndex (iterate n (exec Background.handleSkipProblem) w) = Some i).
Proof.
  intros Hne n i w'.
  assert (Hn : (0 < n)%nat).
  { subst n. destruct (problems w); [congruence | cbn; lia]. }
  assert (Hw' : problems w' = problems w /\ logs w' = logs w /\ solutions w' = solutions w
                /\ alarms w' = alarms w /\ currentPhaseItem w' = currentPhaseItem w
                /\ ((default 0%nat (currentIndex w') + 1) mod n = (i + k + 1) mod n)%nat).
  { subst w'. destruct k as [|k].
    - cbn [iterate]. subst i. rewrite Nat.add_0_r. repeat split; reflexivity.
    - rewrite skipped_again by assumption. cbn. unfold id.
      repeat split; try reflexivity. fold n i.
      rewrite Nat.Div0.add_mod_idemp_l. reflexivity. }
  destruct Hw' as (Hproblems & Hlogs & Hsolutions & Halarms & Hitem & Hindex).
  split; [|repeat split; try assumption].
  - destruct (lookup_lt_is_Some_2 (problems w) ((i + k + 1) mod n)%nat) as [problem Hproblem].
    { apply Nat.mod_upper_bound. lia. }
    exists problem. split; [exact Hproblem|].
    rewrite handleSkipProblem_spec. unfold nextProblemOf, skipped.
    rewrite Hproblems, nextIndex_nonempty by assumption. fold n. rewrite Hindex.
    cbn [Background.problemAt]. rewrite Hproblem. reflexivity.
  - intros Hi. destruct n as [|m] eqn:Hm; [lia|].
    rewrite skipped_again by assumption. cbn [currentIndex set_currentIndex]. f_equal.
    fold i. unfold n in Hm. rewrite Hm.
    rewrite <- Nat.Div0.add_mod_idemp_r, Nat.Div0.mod_same, Nat.add_0_r.
    apply Nat.mod_small. exact Hi.
Qed.

Lemma skipping_rotates_through_the_list_witness :
  problems freshWorld <> []
  /\ currentIndex (iterate 2 (exec Background.handleSkipProblem) freshWorld) = Some 0%nat.
Proof.
  split; [discriminate|].
  refine (proj2 (proj2 (proj2 (proj2 (proj2 (proj2
            (skipping_rotates_through_the_list freshWorld 0 _)))))) _).
  - discriminate.
  - cbn. lia.
Defined.

Lemma nextProblemOf_empty (w : World) : problems w = [] -> nextProblemOf w = None.
Proof. unfold nextProblemOf. intros ->. reflexivity. Qed.

(** X9. Skipping when the problem list is empty: the page first announces
    the skip and then reports a failure; it is left without a current problem
    and without its countdown; the stored index becomes NaN, which [getState]
    reads as 0.  The stored phase record, the alarms and the log stay as they
    were, and a later [completePhase] fails on the missing problem without
    reaching the background script. *)
Theorem skipping_an_empty_list_reports_an_error (s : Sys) :
  problems (world s) = [] ->
  let s' := exec NewTab.skipProblem s in
  alerts (page s')
  = alerts (page s) ++ ["Problem skipped. Moving to next problem...";
                        "Error: Failed to skip problem: " +:+ TypeError "title"]
  /\ currentProblem (page s') = None
  /\ timerInterval (page s') = false
  /\ currentIndex (world s') = None
  /\ fst (Storage.getState (world s')) = Return ([], 0%nat)
  /\ currentPhaseItem (world s') = currentPhaseItem (world s)
  /\ alarms (world s') = alarms (world s)
  /\ logs (world s') = logs (world s)
  /\ let s'' := exec NewTab.completePhase s' in
     world s'' = world s'
     /\ alerts (page s'')
        = alerts (page s') ++ ["Error: Failed to complete understand phase: "
                               +:+ TypeError "url"].
Proof.
  intros Hempty s'. subst s'. unfold exec.
  rewrite skipProblem_none by (apply nextProblemOf_empty; exact Hempty).
  cbn [snd page world]. unfold skipped. rewrite Hempty.
  cbn -[String.append TypeError]. rewrite <- app_assoc.
  repeat split; try reflexivity.
  cbn. rewrite Hempty. reflexivity.
Qed.

Lemma skipping_an_empty_list_reports_an_error_witness :
  let s := mkSys (set_problems [] freshWorld) (page freshSys) in
  problems (world s) = []
  /\ currentProblem (page (exec NewTab.skipProblem s)) = None.
Proof.
  split; [reflexivity|].
  refine (proj1 (proj2 (skipping_an_empty_list_reports_an_error
                          (mkSys (set_problems [] freshWorld) (page freshSys)) _))).
  reflexivity.
Defined.

(** What [startPhase] never touches in storage and on the page. *)
Lemma startPhase_keeps_history (phase : string) (s : Sys) :
  let s' := exec (NewTab.startPhase phase) s in
  solutions (world s') = solutions (world s)
  /\ problems (world s') = problems (world s)
  /\ currentIndex (world s') = currentIndex (world s)
  /\ currentProblem (page s') = currentProblem (page s).
Proof.
  unfold exec.
  destruct (currentProblem (page s)) as [pb|] eqn:Hpb.
  - destruct (durations (world s) !! phase) as [d|] eqn:Hd.
    + destruct (Z.eq_dec d 0) as [-> | Hnz].
      * rewrite (startPhase_invalid _ pb) by auto. cbn. auto.
      * rewrite (startPhase_ok _ pb d) by auto. cbn. auto.
    + rewrite (startPhase_invalid _ pb) by auto. cbn. auto.
  - rewrite startPhase_noProblem by assumption. cbn. auto.
Qed.

Lemma markSolved_next (pb next : Problem) (s : Sys) :
  currentProblem (page s) = Some pb -> nextProblemOf (world s) = Some next ->
  NewTab.markSolved s
  = NewTab.startPhase "understand"
      (mkSys (solved (url pb) (world s))
         (set_currentProblem (Some next)
            (resetPage (alerted "Problem marked as solved! Moving to next problem..."
                          (page s))))).
Proof.
  intros Hpb Hnext.
  rewrite <- (try_startPhase _ (fun message =>
    NewTab.showError ("Failed to mark problem as solved: " +:+ message))).
  unfold NewTab.markSolved. page_js. cbn [world page].
  rewrite Hpb, handleMarkSolved_spec, Hnext. reflexivity.
Qed.

Lemma markSolved_none (pb : Problem) (s : Sys) :
  currentProblem (page s) = Some pb -> nextProblemOf (world s) = None ->
  NewTab.markSolved s
  = (Return tt,
     mkSys (solved (url pb) (world s))
       (alerted ("Error: " +:+ "Failed to mark problem as solved: " +:+ TypeError "title")
          (set_currentProblem None
             (resetPage (alerted "Problem marked as solved! Moving to next problem..."
                           (page s)))))).
Proof.
  intros Hpb Hnext. unfold NewTab.markSolved. page_js. cbn [world page].
  rewrite Hpb, handleMarkSolved_spec, Hnext. reflexivity.
Qed.

Lemma markSolved_noProblem (s : Sys) :
  currentProblem (page s) = None ->
  NewTab.markSolved s
  = (Return tt,
     mkSys (world s)
       (alerted ("Error: " +:+ "Failed to mark problem as solved: " +:+ TypeError "url")
          (page s))).
Proof.
  intros Hpb. unfold NewTab.markSolved. page_js. cbn [world page]. rewrite Hpb.
  destruct s as [w g]. reflexivity.
Qed.

(** X10. [markSolved] never writes to the phase log, also when a phase is
    running.  With a current problem it appends one solution for that
    problem's URL, which [getPastProblemUrls] then lists last, moves the
    stored index to the next problem, shows that problem and restarts the
    sequence at "understand" with no completed phase.  Without a current
    problem it leaves the stored state as it was and only reports an error,
    "Error: Failed to mark problem as solved: " followed by the message of the
    exception. *)
Theorem markSolved_records_the_solution_not_the_phase (s : Sys) :
  let s' := exec NewTab.markSolved s in
  logs (world s') = logs (world s)
  /\ match currentProblem (page s) with
     | Some pb =>
         solutions (world s') = solutions (world s) ++ [mkSolution (clock (world s)) (url pb)]
         /\ fst (Storage.getPastProblemUrls (world s'))
            = Return ((sol_problemUrl <$> solutions (world s)) ++ [url pb])
         /\ currentIndex (world s')
            = Background.nextIndex (default 0%nat (currentIndex (world s)))
                (problems (world s))
         /\ currentProblem (page s') = nextProblemOf (world s)
         /\ currentPhase (page s') = "understand"
         /\ completedPhases (page s') = []
     | None =>
         world s' = world s
         /\ exists message,
              page s' = alerted ("Error: Failed to mark problem as solved: " +:+ message)
                          (page s)
     end.
Proof.
  intros s'. subst s'. unfold exec.
  destruct (currentProblem (page s)) as [pb|] eqn:Hpb.
  - destruct (nextProblemOf (world s)) as [next|] eqn:Hnext.
    + rewrite (markSolved_next pb next) by assumption.
      match goal with |- context [NewTab.startPhase ?p ?x] =>
        destruct (startPhase_frame p x) as (Hlogs & Hphase & Hdone & _);
        destruct (startPhase_keeps_history p x) as (Hsol & Hproblems & Hindex & Hproblem);
        unfold exec in Hlogs, Hphase, Hdone, Hsol, Hproblems, Hindex, Hproblem end.
      cbv [Storage.getPastProblemUrls Storage.getSolutions bind gets ret]. cbn [fst].
      rewrite Hlogs, Hphase, Hdone, Hsol, Hindex, Hproblem.
      cbn. rewrite fmap_app. repeat split; reflexivity.
    + rewrite (markSolved_none pb) by assumption.
      cbv [Storage.getPastProblemUrls Storage.getSolutions bind gets ret].
      cbn. rewrite fmap_app. repeat split; reflexivity.
  - rewrite markSolved_noProblem by assumption. split; [reflexivity|].
    split; [reflexivity|]. eexists. reflexivity.
Qed.

(** ** The sequence of phases *)

(** X11. [getNextPhase] gives the phase that follows in the catalog; it
    gives nothing exactly for "optimize", the last one; for a name that is not
    in the catalog it gives "understand"; it never gives the phase it was
    asked about. *)
Theorem getNextPhase_follows_the_catalog (phase : string) :
  (forall i, NewTab.phases !! i = Some phase -> NewTab.getNextPhase phase = NewTab.phases !! S i)
  /\ (NewTab.getNextPhase phase = None <-> phase = "optimize")
  /\ (phase ∉ NewTab.phases -> NewTab.getNextPhase phase = Some "understand")
  /\ NewTab.getNextPhase phase <> Some phase.
Proof.
  unfold NewTab.getNextPhase, indexOf, NewTab.phases. cbn [indexOf_from length].
  split; [|split; [|split]].
  - intros i Hi.
    destruct i as [|[|[|[|i]]]]; cbn in Hi; try discriminate; injection Hi as <-; reflexivity.
  - split; [|intros ->; reflexivity].
    repeat case_bool_decide; subst; try discriminate; try reflexivity; lia.
  - intros Hnot. repeat case_bool_decide; subst; try reflexivity; try lia;
      exfalso; apply Hnot; set_solver.
  - repeat case_bool_decide; subst; try discriminate; try lia;
      change (Z.to_nat (-1 + 1)) with 0%nat; cbn; congruence.
Qed.

(** A completion that is followed by the start of the next phase. *)
Lemma completeAfter_next (d dNext : Z) (next : string) (pb : Problem) (r : PhaseRecord)
    (s : Sys) :
  currentProblem (page s) = Some pb ->
  currentPhaseItem (world s) = Some r ->
  NewTab.getNextPhase (currentPhase (page s)) = Some next ->
  durations (world s) !! next = Some dNext -> dNext <> 0 ->
  let now := clock (world s) + d in
  let s' := completeAfter d s in
  currentProblem (page s') = Some pb
  /\ currentPhaseItem (world s') = Some (mkPhaseRecord (url pb) next now)
  /\ currentPhase (page s') = next
  /\ durations (world s') = durations (world s)
  /\ clock (world s') = now
  /\ logs (world s')
     = logs (world s) ++ [completedEntry (url pb) (currentPhase (page s)) r now]
  /\ completedPhases (page s') = completedPhases (page s) ++ [currentPhase (page s)]
  /\ alerts (page s') = alerts (page s)
  /\ alarms (world s')
     = <[next := now + dNext * 1000]>
         (delete next (delete (currentPhase (page s)) (alarms (world s)))).
Proof.
  intros Hpb Hr Hnext Hd Hnz now s'. subst s' now. unfold completeAfter, exec.
  rewrite (completePhase_active pb r) by assumption.
  cbn [page world]. rewrite Hnext.
  rewrite (startPhase_ok _ pb dNext) by assumption.
  repeat split; try reflexivity. exact Hpb.
Qed.

(** A completion after which no phase is left. *)
Lemma completeAfter_last (d : Z) (pb : Problem) (r : PhaseRecord) (s : Sys) :
  currentProblem (page s) = Some pb ->
  currentPhaseItem (world s) = Some r ->
  NewTab.getNextPhase (currentPhase (page s)) = None ->
  let now := clock (world s) + d in
  let s' := completeAfter d s in
  currentPhaseItem (world s') = None
  /\ currentPhase (page s') = currentPhase (page s)
  /\ timerInterval (page s') = false
  /\ logs (world s')
     = logs (world s) ++ [completedEntry (url pb) (currentPhase (page s)) r now]
  /\ completedPhases (page s') = completedPhases (page s) ++ [currentPhase (page s)]
  /\ alerts (page s')
     = alerts (page s) ++ ["All phases completed! You can now mark the problem as solved."]
  /\ alarms (world s') = delete (currentPhase (page s)) (alarms (world s)).
Proof.
  intros Hpb Hr Hnext now s'. subst s' now. unfold completeAfter, exec.
  rewrite (completePhase_active pb r) by assumption.
  cbn [page world]. rewrite Hnext.
  repeat split; reflexivity.
Qed.

(** X12. Starting from a running "understand" phase, with the three later
    phases configured, four calls of [completePhase] log four entries, one per
    phase in catalog order, all for the current problem: each interval starts
    at the instant the previous one ended and lasts until its own completion.
    Afterwards the four phases are completed, the page stays on "optimize"
    with no interval running and no countdown, announces that all phases are
    completed, and no phase alarm is pending. *)
Theorem four_completions_log_four_contiguous_intervals
    (s : Sys) (pb : Problem) (r : PhaseRecord) (d1 d2 d3 d4 : Z) :
  currentProblem (page s) = Some pb ->
  currentPhase (page s) = "understand" ->
  currentPhaseItem (world s) = Some r ->
  (forall phase, phase ∈ ["pseudocode"; "implement"; "optimize"] ->
     exists d, durations (world s) !! phase = Some d /\ d <> 0) ->
  let s4 := completeAfter d4 (completeAfter d3 (completeAfter d2 (completeAfter d1 s))) in
  let t1 := clock (world s) + d1 in
  let t2 := t1 + d2 in
  let t3 := t2 + d3 in
  let t4 := t3 + d4 in
  logs (world s4)
  = logs (world s)
    ++ [mkLogEntry t1 (url pb) "understand" (Qmake (t1 - rec_startTime r) 1000)
          (rec_startTime r) t1;
        mkLogEntry t2 (url pb) "pseudocode" (Qmake (t2 - t1) 1000) t1 t2;
        mkLogEntry t3 (url pb) "implement" (Qmake (t3 - t2) 1000) t2 t3;
        mkLogEntry t4 (url pb) "optimize" (Qmake (t4 - t3) 1000) t3 t4]
  /\ completedPhases (page s4) = completedPhases (page s) ++ NewTab.phases
  /\ currentPhase (page s4) = "optimize"
  /\ currentPhaseItem (world s4) = None
  /\ timerInterval (page s4) = false
  /\ alerts (page s4)
     = alerts (page s) ++ ["All phases completed! You can now mark the problem as solved."]
  /\ (forall phase, phase ∈ NewTab.phases -> alarms (world s4) !! phase = None).
Proof.
  intros Hpb Hphase Hr Hdurations s4 t1 t2 t3 t4.
  destruct (Hdurations "pseudocode") as [dP [HdP HnzP]]; [set_solver|].
  destruct (Hdurations "implement") as [dI [HdI HnzI]]; [set_solver|].
  destruct (Hdurations "optimize") as [dO [HdO HnzO]]; [set_solver|].
  destruct (completeAfter_next d1 dP "pseudocode" pb r s)
    as (Hpb1 & Hr1 & Hphase1 & Hd1 & Hclock1 & Hlogs1 & Hdone1 & Halerts1 & Halarms1);
    try assumption; [rewrite Hphase; reflexivity|].
  set (s1 := completeAfter d1 s) in *.
  destruct (completeAfter_next d2 dI "implement" pb _ s1 Hpb1 Hr1)
    as (Hpb2 & Hr2 & Hphase2 & Hd2 & Hclock2 & Hlogs2 & Hdone2 & Halerts2 & Halarms2);
    [rewrite Hphase1; reflexivity | rewrite Hd1; exact HdI | exact HnzI |].
  set (s2 := completeAfter d2 s1) in *.
  destruct (completeAfter_next d3 dO "optimize" pb _ s2 Hpb2 Hr2)
    as (Hpb3 & Hr3 & Hphase3 & Hd3 & Hclock3 & Hlogs3 & Hdone3 & Halerts3 & Halarms3);
    [rewrite Hphase2; reflexivity | rewrite Hd2, Hd1; exact HdO | exact HnzO |].
  set (s3 := completeAfter d3 s2) in *.
  destruct (completeAfter_last d4 pb _ s3 Hpb3 Hr3)
    as (Hr4 & Hphase4 & Htimer4 & Hlogs4 & Hdone4 & Halerts4 & Halarms4);
    [rewrite Hphase3; reflexivity|].
  fold s4 in Hr4, Hphase4, Htimer4, Hlogs4, Hdone4, Halerts4, Halarms4.
  rewrite Hclock1 in *. rewrite Hclock2 in *. rewrite Hclock3 in *.
  fold t1 in Hr1, Hlogs1, Halarms1, Hr2, Hlogs2, Halarms2, Hr3, Hlogs3, Halarms3, Hlogs4.
  fold t2 in Hr2, Hlogs2, Halarms2, Hr3, Hlogs3, Halarms3, Hlogs4.
  fold t3 in Hr3, Hlogs3, Halarms3, Hlogs4.
  fold t4 in Hlogs4.
  split; [|split; [|split; [|split; [|split; [|split]]]]].
  - rewrite Hlogs4, Hlogs3, Hlogs2, Hlogs1, Hphase3, Hphase2, Hphase1, Hphase.
    rewrite <- !app_assoc. reflexivity.
  - rewrite Hdone4, Hdone3, Hdone2, Hdone1, Hphase3, Hphase2, Hphase1, Hphase.
    rewrite <- !app_assoc. reflexivity.
  - rewrite Hphase4. exact Hphase3.
  - exact Hr4.
  - exact Htimer4.
  - rewrite Halerts4, Halerts3, Halerts2, Halerts1. reflexivity.
  - intros phase Hin. rewrite Halarms4, Halarms3, Halarms2, Halarms1.
    rewrite Hphase3, Hphase2, Hphase1, Hphase.
    unfold NewTab.phases in Hin.
    repeat (apply elem_of_cons in Hin as [-> | Hin];
            [repeat (first [rewrite lookup_delete_eq; reflexivity
                           | rewrite lookup_delete_ne by discriminate
                           | rewrite lookup_insert_ne by discriminate])|]).
    inversion Hin.
Qed.

Lemma four_completions_log_four_contiguous_intervals_witness :
  length (logs (world (completeAfter 600000 (completeAfter 240000
            (completeAfter 240000 (completeAfter 120000 understanding)))))) = 4%nat.
Proof.
  pose proof (four_completions_log_four_contiguous_intervals understanding twoSum
                (mkPhaseRecord (url twoSum) "understand" 0) 120000 240000 240000 600000
                eq_refl eq_refl eq_refl) as H.
  cbv zeta in H. destruct H as [Hlogs _].
  - intros phase Hin.
    repeat (apply elem_of_cons in Hin as [-> | Hin];
            [eexists; split; [reflexivity | discriminate]|]).
    inversion Hin.
  - rewrite Hlogs. reflexivity.
Defined.

(** ** The countdown of the page *)

Lemma intervalCallback_stopped (s : Sys) :
  timerInterval (page s) = false -> exec NewTab.intervalCallback s = s.
Proof.
  intros Hoff. unfold exec, NewTab.intervalCallback. page_js. cbn [snd].
  rewrite Hoff. reflexivity.
Qed.

Lemma intervalCallback_running (s : Sys) :
  timerInterval (page s) = true -> 0 < remainingTime (page s) - 1 ->
  exec NewTab.intervalCallback s
  = mkSys (world s) (set_remainingTime (remainingTime (page s) - 1) (page s)).
Proof.
  intros Hon Hleft. unfold exec, NewTab.intervalCallback. page_js. cbn [snd].
  rewrite Hon. cbn [page world remainingTime set_remainingTime].
  rewrite bool_decide_eq_false_2 by lia. reflexivity.
Qed.

Lemma intervalCallback_last (s : Sys) :
  timerInterval (page s) = true -> remainingTime (page s) - 1 <= 0 ->
  exec NewTab.intervalCallback s
  = mkSys (world s)
      (alerted (timeUp (currentPhase (page s)))
         (set_timerInterval false
            (set_remainingTime (remainingTime (page s) - 1) (page s)))).
Proof.
  intros Hon Hleft. unfold exec, NewTab.intervalCallback. page_js. cbn [snd].
  rewrite Hon. cbn [page world remainingTime set_remainingTime].
  rewrite bool_decide_eq_true_2 by lia. reflexivity.
Qed.

(** The page [k] ticks after its countdown was set to [seconds]. *)
Lemma countdown_state (s : Sys) (seconds : Z) (k : nat) :
  timerInterval (page s) = true -> remainingTime (page s) = seconds ->
  iterate k (exec NewTab.intervalCallback) s
  = if bool_decide (Z.of_nat k < Z.max 1 seconds)
    then mkSys (world s) (set_remainingTime (seconds - Z.of_nat k) (page s))
    else mkSys (world s)
           (alerted (timeUp (currentPhase (page s)))
              (set_timerInterval false
                 (set_remainingTime (seconds - Z.max 1 seconds) (page s)))).
Proof.
  intros Hon Hrem. induction k as [|k IH].
  - cbn [iterate]. rewrite bool_decide_eq_true_2 by lia.
    rewrite Z.sub_0_r, <- Hrem. destruct s as [w []]. reflexivity.
  - rewrite iterate_succ, IH. clear IH.
    destruct (decide (Z.of_nat (S k) < Z.max 1 seconds)) as [Hlt | Hge].
    + rewrite !bool_decide_eq_true_2 by lia.
      rewrite intervalCallback_running; cbn; [|exact Hon | lia].
      unfold set_remainingTime. cbn. do 2 f_equal. lia.
    + rewrite (bool_decide_eq_false_2 (Z.of_nat (S k) < _)) by exact Hge.
      case_bool_decide as Hk.
      * rewrite intervalCallback_last; cbn; [|exact Hon | lia].
        unfold alerted, set_alerts, set_timerInterval, set_remainingTime. cbn.
        do 2 f_equal. lia.
      * rewrite intervalCallback_stopped by reflexivity. reflexivity.
Qed.


(** X14. A phase that runs out with the page open is announced twice on the
    page: once by the page's own countdown reaching 0, once more when the
    alarm reaches the background script, which notifies, logs the interval and
    sends PHASE_TIMEOUT to the page. *)
Theorem phase_running_out_is_announced_twice
    (s : Sys) (pb : Problem) (phase : string) (d : Z) :
  currentProblem (page s) = Some pb ->
  durations (world s) !! phase = Some d -> 1 <= d ->
  phase <> "quizReminderCheck" ->
  let s1 := exec (NewTab.startPhase phase) s in
  let s2 := iterate (Z.to_nat d) (exec NewTab.intervalCallback) s1 in
  let s3 := exec (alarmEvent phase) (mkSys (elapse (d * 1000) (world s2)) (page s2)) in
  alerts (page s2) = alerts (page s) ++ [timeUp phase]
  /\ alerts (page s3) = alerts (page s) ++ [timeUp phase; timeUp phase]
  /\ notifications (world s3) = notifications (world s) ++ [phase]
  /\ logs (world s3)
     = logs (world s)
       ++ [mkLogEntry (clock (world s) + d * 1000) (url pb) phase (Qmake (d * 1000) 1000)
             (clock (world s)) (clock (world s) + d * 1000)].
Proof.
  intros Hpb Hd Hpos Hquiz s1 s2 s3. subst s3 s2.
  assert (Hs1 : s1 = mkSys (started phase (url pb) d (world s))
                       (startedPage phase d (page s))).
  { subst s1. unfold exec. rewrite (startPhase_ok _ pb d) by (try assumption; lia).
    reflexivity. }
  rewrite Hs1. clear Hs1 s1.
  rewrite (countdown_state _ d (Z.to_nat d)) by reflexivity.
  rewrite bool_decide_eq_false_2 by lia. cbn [world page].
  unfold exec.
  rewrite (alarmEvent_active (mkPhaseRecord (url pb) phase (clock (world s))))
    by (try reflexivity; exact Hquiz).
  cbn -[String.append]. unfold timeUp. rewrite <- app_assoc.
  repeat split; try reflexivity.
  unfold completedEntry. cbn [rec_startTime].
  replace (clock (world s) + d * 1000 - clock (world s)) with (d * 1000) by lia.
  reflexivity.
Qed.

Lemma phase_running_out_is_announced_twice_witness :
  let s2 := iterate 300 (exec NewTab.intervalCallback)
              (exec (NewTab.startPhase "understand") freshSys) in
  alerts (page (exec (alarmEvent "understand")
                  (mkSys (elapse 300000 (world s2)) (page s2))))
  = [timeUp "understand"; timeUp "understand"].
Proof.
  exact (proj1 (proj2 (phase_running_out_is_announced_twice freshSys twoSum "understand" 300
                         eq_refl eq_refl ltac:(lia) ltac:(discriminate)))).
Defined.

(** ** The record and the notification of an interval *)

Lemma run_idle_quiet (p : string) (events : list Event) (w : World) :
  currentPhaseItem w = None ->
  currentPhaseItem (run p events w) = None
  /\ logs (run p events w) = logs w
  /\ notifications (run p events w) = notifications w.
Proof.
  revert w. induction events as [|e events IH]; intros w Hidle; [auto|].
  cbn [run fold_left]. fold (run p events (step p e w)).
  assert (Hstep : currentPhaseItem (step p e w) = None
                  /\ logs (step p e w) = logs w
                  /\ notifications (step p e w) = notifications w).
  { destruct e as [phase problemUrl | | d]; cbn [step]; unfold exec.
    - rewrite handleCompletePhase_idle by assumption. auto.
    - rewrite handlePhaseTimeout_stale by (unfold stale; rewrite Hidle; exact I). auto.
    - auto. }
  destruct Hstep as (Hi & Hl & Hn). destruct (IH _ Hi) as (Hi' & Hl' & Hn').
  repeat split; congruence.
Qed.

Lemma run_firstEnding (events : list Event) (r : PhaseRecord) (w : World) :
  currentPhaseItem w = Some r ->
  let p := rec_phase r in
  let w' := run p events w in
  match firstEnding events with
  | None =>
      currentPhaseItem w' = Some r /\ logs w' = logs w /\ notifications w' = notifications w
  | Some (elapsed, e) =>
      currentPhaseItem w' = None
      /\ logs w'
         = logs w ++ [entryOf p (rec_problemUrl r) (rec_startTime r)
                        (clock w - rec_startTime r + elapsed) e]
      /\ notifications w' = notifications w ++ notifiedBy p e
  end.
Proof.
  intros Hr p w'. subst w'. revert w Hr.
  induction events as [|e events IH]; intros w Hr; [cbn; auto|].
  cbn [run fold_left]. fold (run p events (step p e w)).
  destruct e as [phase problemUrl | | d]; cbn [firstEnding step].
  - unfold exec. rewrite (handleCompletePhase_active _ _ r) by assumption.
    match goal with |- context [run p events ?x] =>
      destruct (run_idle_quiet p events x eq_refl) as (Hi & Hl & Hn) end.
    rewrite Hi, Hl, Hn. cbn [logs notifications set_logs set_currentPhaseItem set_alarms].
    split; [reflexivity|]. split; [|rewrite app_nil_r; reflexivity].
    unfold completedEntry, entryOf.
    replace (clock w - rec_startTime r + 0) with (clock w - rec_startTime r) by lia.
    replace (rec_startTime r + (clock w - rec_startTime r)) with (clock w) by lia.
    reflexivity.
  - unfold exec. subst p. rewrite (handlePhaseTimeout_active r) by assumption.
    match goal with |- context [run ?q events ?x] =>
      destruct (run_idle_quiet q events x eq_refl) as (Hi & Hl & Hn) end.
    rewrite Hi, Hl, Hn.
    cbn [logs notifications set_logs set_currentPhaseItem set_notifications].
    split; [reflexivity|]. split; [|reflexivity].
    unfold completedEntry, entryOf.
    replace (clock w - rec_startTime r + 0) with (clock w - rec_startTime r) by lia.
    replace (rec_startTime r + (clock w - rec_startTime r)) with (clock w) by lia.
    reflexivity.
  - specialize (IH (elapse d w) Hr). cbn [elapse set_clock clock logs notifications] in IH.
    destruct (firstEnding events) as [[elapsed e]|]; [|exact IH].
    destruct IH as (Hi & Hl & Hn). split; [exact Hi|]. split; [|exact Hn].
    rewrite Hl. do 3 f_equal. lia.
Qed.

(** X15. After a successful start, the first manual completion or timeout
    that follows decides the record of the interval: its duration is the time
    that passed since the start, whatever events come later.  A timeout
    records the phase and the problem of the stored record and creates the one
    notification; a manual completion records the phase and the problem named
    in the request and creates no notification.  While only time passes the
    stored record, the log and the notifications stay as they were. *)
Theorem first_ending_event_writes_the_record
    (w0 : World) (p u : string) (info : StartInfo) (events : list Event) :
  fst (Background.handleStartPhase p u w0) = Return (Success info) ->
  let w := run p events (exec (Background.handleStartPhase p u) w0) in
  match firstEnding events with
  | None =>
      currentPhaseItem w = Some (mkPhaseRecord u p (clock w0))
      /\ logs w = logs w0
      /\ notifications w = notifications w0
  | Some (elapsed, e) =>
      currentPhaseItem w = None
      /\ logs w = logs w0 ++ [entryOf p u (clock w0) elapsed e]
      /\ notifications w = notifications w0 ++ notifiedBy p e
  end.
Proof.
  intros Hstart w.
  destruct (handleStartPhase_success _ _ _ _ Hstart) as [d0 [_ [_ [_ Hw1]]]].
  subst w. rewrite Hw1.
  pose proof (run_firstEnding events (mkPhaseRecord u p (clock w0)) (started p u d0 w0)
                eq_refl) as Hrun.
  cbv zeta in Hrun. cbn [rec_phase rec_problemUrl rec_startTime] in Hrun.
  destruct (firstEnding events) as [[elapsed e]|]; [|exact Hrun].
  destruct Hrun as (Hi & Hl & Hn). split; [exact Hi|]. split; [|exact Hn].
  rewrite Hl. cbn [clock started set_currentPhaseItem set_alarms logs].
  do 3 f_equal. lia.
Qed.

Lemma first_ending_event_writes_the_record_witness :
  let events := [Elapse 300000; TimeoutFires; ManualComplete "understand" (url twoSum)] in
  let w := run "understand" events
             (exec (Background.handleStartPhase "understand" (url twoSum)) freshWorld) in
  currentPhaseItem w = None
  /\ logs w = [mkLogEntry 300000 (url twoSum) "understand" (Qmake 300000 1000) 0 300000]
  /\ notifications w = ["understand"].
Proof.
  exact (first_ending_event_writes_the_record freshWorld "understand" (url twoSum)
           (mkStartInfo "understand" 300 0)
           [Elapse 300000; TimeoutFires; ManualComplete "understand" (url twoSum)] eq_refl).
Defined.

(** ** Logging an interval and the report *)

Lemma recordsOf_app (problemUrl phase : string) (logs more : list LogEntry) :
  recordsOf problemUrl phase (logs ++ more)
  = recordsOf problemUrl phase logs ++ recordsOf problemUrl phase more.
Proof. apply filter_app. Qed.

Lemma sumOfDurations_snoc (records : list LogEntry) (log : LogEntry) :
  sumOfDurations (records ++ [log]) = Qplus (sumOfDurations records) (log_duration log).
Proof. unfold sumOfDurations. rewrite fmap_app, fold_left_app. reflexivity. Qed.

(** X16. [logPhaseTiming] answers the entry it appends to the log and
    changes the stored state exactly as [storage.logPhase] does for the same
    arguments.  For a log without inherited names and no solution stored for
    [__proto__]: when the problem URL or the phase of the new entry is an
    inherited name, the weekly report throws afterwards; otherwise the report
    is generated, the total of the entry's problem and phase has grown by the
    entry's duration (starting from 0 when there was no total), and no other
    total has changed. *)
Theorem logPhaseTiming_adds_its_duration_to_one_total
    (toLocaleDateString : Z -> string) (w : World) (problemUrl phaseName : string)
    (start end_ : Z) :
  existsb inheritedNames (logs w) = false ->
  existsb onPrototype (solutions w) = false ->
  let entry := mkLogEntry (clock w) problemUrl phaseName (Qmake (end_ - start) 1000)
                 start end_ in
  let report w := fst (Logger.generateWeeklyReport toLocaleDateString w) in
  let total w u p :=
    match report w with
    | Return r => reportedTotal (report_problems r) u p
    | Throw _ => None
    end in
  let w' := exec (Logger.logPhaseTiming problemUrl phaseName start end_) w in
  fst (Logger.logPhaseTiming problemUrl phaseName start end_ w) = Return entry
  /\ w' = exec (Storage.logPhase problemUrl phaseName start end_) w
  /\ logs w' = logs w ++ [entry]
  /\ if inheritedName problemUrl || inheritedName phaseName
     then exists message, report w' = Throw message
     else (exists r, report w' = Return r)
          /\ total w' problemUrl phaseName
             = Some (Qplus (default (inject_Z 0) (total w problemUrl phaseName))
                           (Qmake (end_ - start) 1000))
          /\ (forall u p, (u, p) <> (problemUrl, phaseName) -> total w' u p = total w u p).
Proof.
  intros Hclean _ entry report total w'.
  split; [reflexivity|]. split; [reflexivity|]. split; [reflexivity|].
  assert (Hlogs : logs w' = logs w ++ [entry]) by reflexivity.
  assert (Hnames : existsb inheritedNames (logs w')
                   = inheritedName problemUrl || inheritedName phaseName).
  { rewrite Hlogs, existsb_app, Hclean. cbn. apply orb_false_r. }
  destruct (inheritedName problemUrl || inheritedName phaseName) eqn:Hentry.
  - apply generateWeeklyReport_throws. exact Hnames.
  - destruct (generateWeeklyReport_totals toLocaleDateString w Hclean) as (r & Hr & Htotal).
    destruct (generateWeeklyReport_totals toLocaleDateString w' Hnames)
      as (r' & Hr' & Htotal').
    subst total report. cbv beta. rewrite Hr, Hr'.
    split; [exists r'; reflexivity|]. split.
    + rewrite Htotal, Htotal', Hlogs, recordsOf_app.
      assert (Hone : recordsOf problemUrl phaseName [entry] = [entry]).
      { unfold recordsOf. rewrite filter_cons_True by (split; reflexivity). reflexivity. }
      rewrite Hone.
      destruct (recordsOf problemUrl phaseName (logs w)) as [|record records] eqn:Hold.
      * reflexivity.
      * change (Some (sumOfDurations ((record :: records) ++ [entry]))
                = Some (Qplus (sumOfDurations (record :: records)) (log_duration entry))).
        rewrite sumOfDurations_snoc. reflexivity.
    + intros u p Hne. rewrite Htotal, Htotal', Hlogs, recordsOf_app.
      assert (Hnone : recordsOf u p [entry] = []).
      { unfold recordsOf. rewrite filter_cons_False; [reflexivity|].
        cbn. intros [-> ->]. apply Hne. reflexivity. }
      rewrite Hnone, app_nil_r. reflexivity.
Qed.

Lemma logPhaseTiming_adds_its_duration_to_one_total_witness :
  existsb inheritedNames (logs (world understanding)) = false
  /\ existsb onPrototype (solutions (world understanding)) = false
  /\ logs (exec (Logger.logPhaseTiming (url twoSum) "understand" 0 200000)
             (world understanding))
     = [mkLogEntry 0 (url twoSum) "understand" (Qmake 200000 1000) 0 200000].
Proof.
  split; [reflexivity|]. split; [reflexivity|].
  exact (proj1 (proj2 (proj2 (logPhaseTiming_adds_its_duration_to_one_total utcDay
                                (world understanding) (url twoSum) "understand" 0 200000
                                eq_refl eq_refl)))).
Defined.
